(** * Room hub: clients, rooms and the room directory

    A shallow embedding of the real-time fan-out layer of the video
    party room service (package [room]): the wire [Message], the
    [Client] with its bounded outbound queue, the [Room] event loop
    (admission, eviction, broadcast, teardown) and the [Hub] directory.

    Go pointers are modelled as identifiers into a store of objects, so
    that a [*Client] kept in a room's client set, in [Message.From] and
    in the hands of the client's own goroutines is one shared object.
    Buffered channels are modelled by their buffer and their closed
    flag, with Go's rules: sending on a closed channel panics, closing a
    closed channel panics, receiving from a closed channel never blocks.
    A panic is an explicit outcome. *)

From Stdlib Require Import PrimFloat Ascii String.
From stdpp Require Import gmap strings list fin_maps.

Open Scope string_scope.

(** ** Outcomes: normal completion or a Go run-time panic *)

Inductive panic : Type :=
  | SendOnClosedChannel      (* "send on closed channel" *)
  | CloseOfClosedChannel     (* "close of closed channel" *)
  | AssignToNilMap           (* "assignment to entry in nil map" *)
  | InvalidPointer.          (* dereference of an identifier that denotes no object *)

Inductive outcome (A : Type) : Type :=
  | Done (a : A)
  | Panicked (why : panic).
Arguments Done {A} a.
Arguments Panicked {A} why.

Definition obind {A B} (x : outcome A) (f : A -> outcome B) : outcome B :=
  match x with
  | Done a => f a
  | Panicked why => Panicked why
  end.

Notation "'do' x <- c ; k" := (obind c (fun x => k))
  (at level 10, x name, c at level 100, k at level 200).

Definition panics {A} (x : outcome A) : Prop :=
  match x with Done _ => False | Panicked _ => True end.

(** ** Messages *)

Definition CommandType := string.
Definition CommandPlay : CommandType := "play".
Definition CommandPause : CommandType := "pause".
Definition CommandSeek : CommandType := "seek".
Definition CommandSync : CommandType := "sync".
Definition CommandError : CommandType := "error".
Definition CommandVideoChange : CommandType := "change-video".

Definition ClientId := positive.
Definition RoomId := positive.

(** [time.Time], as nanoseconds since the epoch. *)
Definition GoTime := Z.

(** [float64] is the IEEE 754 binary64 type. *)
Definition float64 := float.

Record Message : Type := mkMessage {
  Type_ : CommandType;          (* `json:"type"` *)
  From_ : option ClientId;      (* `json:"-"`; [None] is the nil pointer *)
  Time_ : float64;              (* `json:"time,omitempty"` *)
  Timestamp : GoTime;           (* `json:"timestamp"` *)
  payload : string              (* unexported *)
}.

(** ** Buffered channels of messages *)

Record Chan : Type := mkChan {
  buf : list Message;
  cap : nat;
  chan_closed : bool
}.

(** [make(chan *Message, n)] *)
Definition make_chan (n : nat) : Chan :=
  {| buf := []; cap := n; chan_closed := false |}.

(** The send case of a [select] that has a [default]. *)
Inductive try_send_result : Type :=
  | Sent (ch : Chan)
  | WouldBlock
  | SendPanics.

Definition try_send (m : Message) (ch : Chan) : try_send_result :=
  if chan_closed ch then SendPanics
  else if decide (length (buf ch) < cap ch)
       then Sent {| buf := buf ch ++ [m]; cap := cap ch; chan_closed := false |}
       else WouldBlock.

(** The receive case of a [select] that has a [default]: [None] when the
    receive would block; a closed and drained channel yields the zero
    value, modelled by the unchanged channel. *)
Definition try_recv (ch : Chan) : option (option Message * Chan) :=
  match buf ch with
  | m :: rest => Some (Some m, {| buf := rest; cap := cap ch; chan_closed := chan_closed ch |})
  | [] => if chan_closed ch then Some (None, ch) else None
  end.

(** [close(ch)] *)
Definition close_chan (ch : Chan) : outcome Chan :=
  if chan_closed ch then Panicked CloseOfClosedChannel
  else Done {| buf := buf ch; cap := cap ch; chan_closed := true |}.

(** ** Clients *)

(** The transport: closing a closed connection only returns an error,
    which every caller in the package discards. *)
Record Conn : Type := mkConn { conn_closed : bool }.

Definition Conn_Close (c : Conn) : Conn := {| conn_closed := true |}.

Record Client : Type := mkClient {
  Conn_ : Conn;
  Room_ : RoomId;
  send : Chan
}.

(** [func (c *Client) close()] *)
Definition Client_close (c : Client) : outcome Client :=
  do ch <- match try_recv (send c) with
           | Some (_, ch') => Done ch'          (* case <-c.send: *)
           | None => close_chan (send c)        (* default: close(c.send) *)
           end;
  Done {| Conn_ := Conn_Close (Conn_ c); Room_ := Room_ c; send := ch |}.

(** [&Client{Conn: conn, Room: room, send: make(chan *Message, 10)}]
    in [VideoController]. *)
Definition NewClient (r : RoomId) : Client :=
  {| Conn_ := {| conn_closed := false |}; Room_ := r; send := make_chan 10 |}.

(** *** The inbound loop *)

(** What one turn of the read loop obtains from the connection and from
    [json.Unmarshal]; [now] is the reading of [time.Now()] of that turn. *)
Inductive ReadEvent : Type :=
  | ReadError                                   (* ReadMessage returned an error *)
  | ReadInvalid                                 (* json.Unmarshal returned an error *)
  | ReadFrame (msg : Message) (now : GoTime).   (* the frame decoded into msg *)

(** The [switch msg.Type] of [receiveHandler]. *)
Definition validCommand (t : CommandType) : bool :=
  if decide (t = CommandPlay) then true
  else if decide (t = CommandPause) then true
  else if decide (t = CommandSeek) then true
  else if decide (t = CommandSync) then true
  else if decide (t = CommandVideoChange) then true
  else false.

(** [msg.From = c; msg.Timestamp = time.Now()] *)
Definition stamp (c : ClientId) (now : GoTime) (msg : Message) : Message :=
  {| Type_ := Type_ msg; From_ := Some c; Time_ := Time_ msg;
     Timestamp := now; payload := payload msg |}.

(** The body of the loop for a decoded frame: the message sent on
    [c.Room.message], or [None] when the frame is skipped. *)
Definition receiveFrame (c : ClientId) (msg : Message) (now : GoTime) : option Message :=
  if validCommand (Type_ msg) then Some (stamp c now msg) else None.

(** [func (c *Client) receiveHandler()]: the messages submitted, each
    with the room it is submitted to, and whether the loop has returned
    ([false]: it waits for the next frame). *)
Fixpoint receiveHandler (c : ClientId) (cl : Client) (evs : list ReadEvent)
  : list (RoomId * Message) * bool :=
  match evs with
  | [] => ([], false)
  | ReadError :: _ => ([], true)
  | ReadInvalid :: rest => receiveHandler c cl rest
  | ReadFrame msg now :: rest =>
      match receiveFrame c msg now with
      | Some out =>
          let '(outs, returned) := receiveHandler c cl rest in
          ((Room_ cl, out) :: outs, returned)
      | None => receiveHandler c cl rest
      end
  end.

(** *** The outbound loop and the wire form *)

Inductive JSON : Type :=
  | JString (s : string)
  | JNumber (f : float64)
  | JTime (t : GoTime).

Definition quote : string := String "034"%char EmptyString.

Section Wire.
(** The encoders of [encoding/json], [strconv] and [time], which are
    not part of the package: the JSON string literal of a string, the
    literal of a number (none for NaN and the infinities), the quoted
    RFC 3339 form of a time (none outside the years 0 to 9999), and
    the emptiness test behind [omitempty]. *)
Variable encodeString : string -> string.
Variable encodeFloat : float64 -> option string.
Variable encodeTime : GoTime -> option string.
Variable isEmptyValue : float64 -> bool.

(** The fields [json.Marshal] visits in a [Message], by its tags:
    [From] is tagged "-" and [payload] is unexported. *)
Definition wireFields (m : Message) : list (string * JSON) :=
  [("type", JString (Type_ m))]
  ++ (if isEmptyValue (Time_ m) then [] else [("time", JNumber (Time_ m))])
  ++ [("timestamp", JTime (Timestamp m))].

Definition encodeValue (v : JSON) : option string :=
  match v with
  | JString s => Some (encodeString s)
  | JNumber f => encodeFloat f
  | JTime t => encodeTime t
  end.

Definition encodeField (kv : string * JSON) : option string :=
  match encodeValue kv.2 with
  | Some v => Some (quote ++ kv.1 ++ quote ++ ":" ++ v)
  | None => None
  end.

Fixpoint encodeFields (kvs : list (string * JSON)) : option (list string) :=
  match kvs with
  | [] => Some []
  | kv :: rest =>
      match encodeField kv, encodeFields rest with
      | Some f, Some fs => Some (f :: fs)
      | _, _ => None
      end
  end.

(** [json.Marshal(message)] *)
Definition Marshal (m : Message) : option string :=
  match encodeFields (wireFields m) with
  | Some fs => Some ("{" ++ String.concat "," fs ++ "}")
  | None => None
  end.

(** What one turn of the write loop's [select] obtains. *)
Inductive SendEvent : Type :=
  | QueueMessage (m : Message) (written : bool)   (* message, ok := <-c.send with ok *)
  | QueueClosed                                   (* ok is false *)
  | Tick (written : bool).                        (* <-ticker.C *)

Inductive Frame : Type :=
  | TextMessage (data : string)
  | PingMessage.

(** [func (c *Client) sendHandler()]: the frames written to the
    connection, and whether the loop has returned. *)
Fixpoint sendHandler (evs : list SendEvent) : list Frame * bool :=
  match evs with
  | [] => ([], false)
  | QueueClosed :: _ => ([], true)
  | QueueMessage m written :: rest =>
      match Marshal m with
      | None => sendHandler rest
      | Some data =>
          if written
          then let '(fs, returned) := sendHandler rest in (TextMessage data :: fs, returned)
          else ([], true)
      end
  | Tick written :: rest =>
      if written
      then let '(fs, returned) := sendHandler rest in (PingMessage :: fs, returned)
      else ([], true)
  end.
End Wire.

(** ** Rooms *)

Record Room : Type := mkRoom {
  unregister : list ClientId;          (* chan *Client, capacity 10 *)
  message : list Message;              (* chan *Message, capacity 10 *)
  clients : option (gset ClientId);    (* map[*Client]bool; [None] is the nil map *)
  cancelled : bool;                    (* cancel() has been called: ctx.Done() is closed *)
  cleaned : bool                       (* atomic.Bool *)
}.

(** [func NewRoom() *Room] *)
Definition NewRoom : Room :=
  {| unregister := []; message := []; clients := Some ∅;
     cancelled := false; cleaned := false |}.

(** Where the goroutine started by [Run] stands. *)
Inductive LoopState : Type :=
  | Selecting                                     (* in the select of Run *)
  | Sending (msg : Message) (todo : list ClientId)
      (* in the loop of sendMessage, the clients of todo still to visit *)
  | Dropping (msg : Message) (c : ClientId) (todo : list ClientId)
      (* in sendMessage, the default case taken for c, before c.close() *)
  | Returned.                                     (* Run's goroutine has returned *)

(** A room together with the client objects its pointers denote and the
    goroutines at work for it. *)
Record State : Type := mkState {
  room : Room;
  heap : gmap ClientId Client;
  receiving : gset ClientId;    (* clients whose receiveHandler has not returned *)
  sending : gset ClientId;      (* clients whose sendHandler has not returned *)
  loop : LoopState
}.

Definition set_room (r : Room) (s : State) : State :=
  {| room := r; heap := heap s; receiving := receiving s;
     sending := sending s; loop := loop s |}.

Definition set_heap (h : gmap ClientId Client) (s : State) : State :=
  {| room := room s; heap := h; receiving := receiving s;
     sending := sending s; loop := loop s |}.

(** The keys of the client map; a nil map has none. *)
Definition members (r : Room) : gset ClientId := default ∅ (clients r).

(** [len(r.clients)]. *)
Definition ClientCount (s : State) : nat := size (members (room s)).

(** [for client := range r.clients]: Go leaves the order of the
    iteration unspecified, so a run of the loop is given by any
    enumeration [order] of the keys. *)
Definition range_order (r : Room) (order : list ClientId) : Prop :=
  order ≡ₚ elements (members r).

#[global] Instance range_order_dec (r : Room) (order : list ClientId) :
  Decision (range_order r order).
Proof. unfold range_order. apply _. Defined.

Fixpoint range_clients (body : ClientId -> gmap ClientId Client -> outcome (gmap ClientId Client))
    (order : list ClientId) (h : gmap ClientId Client) : outcome (gmap ClientId Client) :=
  match order with
  | [] => Done h
  | client :: rest => do h' <- body client h; range_clients body rest h'
  end.

(** [c.close()] on the object that [client] denotes. *)
Definition close_client (client : ClientId) (h : gmap ClientId Client)
  : outcome (gmap ClientId Client) :=
  match h !! client with
  | None => Panicked InvalidPointer
  | Some c => do c' <- Client_close c; Done (<[client := c']> h)
  end.

(** The body of the loop of [cleanup]. *)
Definition cleanup_client (client : ClientId) (h : gmap ClientId Client)
  : outcome (gmap ClientId Client) :=
  match h !! client with
  | None => Panicked InvalidPointer
  | Some c =>
      do ch <- close_chan (send c);
      Done (<[client := {| Conn_ := Conn_Close (Conn_ c); Room_ := Room_ c; send := ch |}]> h)
  end.

(** [func (r *Room) cleanup()] *)
Definition cleanup (order : list ClientId) (s : State) : outcome State :=
  if cleaned (room s) then Done s
  else
    do h <- range_clients cleanup_client order (heap s);
    Done (set_heap h (set_room
      {| unregister := unregister (room s); message := message (room s);
         clients := None; cancelled := cancelled (room s); cleaned := true |} s)).

(** [func (r *Room) registerClient(client *Client)]; [client.run()]
    starts the two loops of the client. *)
Definition registerClient (client : ClientId) (s : State) : outcome State :=
  match clients (room s) with
  | None => Panicked AssignToNilMap
  | Some cs =>
      Done {| room := {| unregister := unregister (room s); message := message (room s);
                         clients := Some ({[client]} ∪ cs);
                         cancelled := cancelled (room s); cleaned := cleaned (room s) |};
              heap := heap s;
              receiving := {[client]} ∪ receiving s;
              sending := {[client]} ∪ sending s;
              loop := loop s |}
  end.

(** [func (r *Room) unregisterClient(client *Client)] *)
Definition unregisterClient (client : ClientId) (s : State) : outcome State :=
  match clients (room s) with
  | Some cs =>
      if decide (client ∈ cs) then
        let cs' := cs ∖ {[client]} in
        do h <- close_client client (heap s);
        Done (set_heap h (set_room
          {| unregister := unregister (room s); message := message (room s);
             clients := Some cs';
             cancelled := if decide (size cs' = 0) then true else cancelled (room s);
             cleaned := cleaned (room s) |} s))
      else Done s
  | None => Done s
  end.

(** The body of the loop of [sendMessage]. *)
Definition sendTo (msg : Message) (client : ClientId) (h : gmap ClientId Client)
  : outcome (gmap ClientId Client) :=
  if decide (Some client = From_ msg) then Done h
  else
    match h !! client with
    | None => Panicked InvalidPointer
    | Some c =>
        match try_send msg (send c) with
        | Sent ch =>
            Done (<[client := {| Conn_ := Conn_ c; Room_ := Room_ c; send := ch |}]> h)
        | WouldBlock => close_client client h
        | SendPanics => Panicked SendOnClosedChannel
        end
    end.

(** [func (r *Room) sendMessage(message *Message)] *)
Definition sendMessage (order : list ClientId) (msg : Message) (s : State) : outcome State :=
  do h <- range_clients (sendTo msg) order (heap s);
  Done (set_heap h s).

(** ** The room at work: the event loop and the goroutines around it *)

Definition set_unregister (q : list ClientId) (s : State) : State :=
  set_room {| unregister := q; message := message (room s); clients := clients (room s);
              cancelled := cancelled (room s); cleaned := cleaned (room s) |} s.

Definition set_message (q : list Message) (s : State) : State :=
  set_room {| unregister := unregister (room s); message := q; clients := clients (room s);
              cancelled := cancelled (room s); cleaned := cleaned (room s) |} s.

Definition stop_receiving (c : ClientId) (s : State) : State :=
  {| room := room s; heap := heap s; receiving := receiving s ∖ {[c]};
     sending := sending s; loop := loop s |}.

Definition stop_sending (c : ClientId) (s : State) : State :=
  {| room := room s; heap := heap s; receiving := receiving s;
     sending := sending s ∖ {[c]}; loop := loop s |}.

Definition set_loop (l : LoopState) (s : State) : State :=
  {| room := room s; heap := heap s; receiving := receiving s;
     sending := sending s; loop := l |}.

(** The room as [getRoom] leaves it: [NewRoom()] followed by [Run()]. *)
Definition started_room : State :=
  {| room := NewRoom; heap := ∅; receiving := ∅; sending := ∅; loop := Selecting |}.

(** The atomic moves of the goroutines of one room. The room's lock is
    taken by the methods of the room only, so the handlers of a client
    work on the client's queue and connection between any two moves of
    the loop, also inside [sendMessage]. *)
Inductive Action : Type :=
  | Connect                                  (* VideoController hands a new client to the loop *)
  | Receive (c : ClientId) (ev : ReadEvent)  (* one turn of c's receiveHandler *)
  | SendTurn (c : ClientId)                  (* c's sendHandler takes a message and writes it *)
  | SendReturns (c : ClientId)               (* c's sendHandler returns *)
  | LoopUnregister                           (* Run: case client := <-r.unregister *)
  | LoopMessage (order : list ClientId)      (* Run: case message := <-r.message *)
  | LoopVisit                                (* sendMessage: the select for the next client *)
  | LoopDrop                                 (* sendMessage: the client.close() of the default case *)
  | LoopDone (order : list ClientId).        (* Run: case <-r.ctx.Done() *)

(** [exec rid a s]: the result of move [a] in state [s] of the room
    that [rid] points to; [None] when the move cannot be made there. A
    send on a full buffered channel blocks, so it is not a move. *)
Definition exec (rid : RoomId) (a : Action) (s : State) : option (outcome State) :=
  match a with
  | Connect =>
      match loop s with
      | Selecting =>
          let c := fresh (dom (heap s)) in
          Some (registerClient c (set_heap (<[c := NewClient rid]> (heap s)) s))
      | _ => None
      end
  | Receive c ev =>
      if decide (c ∈ receiving s) then
        match ev with
        | ReadInvalid => Some (Done s)
        | ReadFrame msg now =>
            match receiveFrame c msg now with
            | None => Some (Done s)
            | Some out =>
                if decide (length (message (room s)) < 10)
                then Some (Done (set_message (message (room s) ++ [out]) s))
                else None
            end
        | ReadError =>
            if decide (length (unregister (room s)) < 10)
            then Some (do h <- close_client c (heap s);
                       Done (set_heap h (stop_receiving c
                               (set_unregister (unregister (room s) ++ [c]) s))))
            else None
        end
      else None
  | SendTurn c =>
      if decide (c ∈ sending s) then
        match heap s !! c with
        | Some cl =>
            match try_recv (send cl), conn_closed (Conn_ cl) with
            | Some (Some _, ch), false =>
                Some (Done (set_heap
                  (<[c := {| Conn_ := Conn_ cl; Room_ := Room_ cl; send := ch |}]> (heap s)) s))
            | _, _ => None
            end
        | None => None
        end
      else None
  | SendReturns c =>
      if decide (c ∈ sending s)
      then Some (do h <- close_client c (heap s); Done (set_heap h (stop_sending c s)))
      else None
  | LoopUnregister =>
      match loop s, unregister (room s) with
      | Selecting, c :: rest => Some (unregisterClient c (set_unregister rest s))
      | _, _ => None
      end
  | LoopMessage order =>
      match loop s, message (room s) with
      | Selecting, msg :: rest =>
          if decide (range_order (room s) order)
          then Some (Done (set_loop (Sending msg order) (set_message rest s)))
          else None
      | _, _ => None
      end
  | LoopVisit =>
      match loop s with
      | Sending msg [] => Some (Done (set_loop Selecting s))
      | Sending msg (c :: todo) =>
          if decide (Some c = From_ msg) then Some (Done (set_loop (Sending msg todo) s))
          else
            match heap s !! c with
            | None => Some (Panicked InvalidPointer)
            | Some cl =>
                match try_send msg (send cl) with
                | Sent ch =>
                    Some (Done (set_loop (Sending msg todo) (set_heap
                      (<[c := {| Conn_ := Conn_ cl; Room_ := Room_ cl; send := ch |}]> (heap s)) s)))
                | WouldBlock => Some (Done (set_loop (Dropping msg c todo) s))
                | SendPanics => Some (Panicked SendOnClosedChannel)
                end
            end
      | _ => None
      end
  | LoopDrop =>
      match loop s with
      | Dropping msg c todo =>
          Some (do h <- close_client c (heap s);
                Done (set_loop (Sending msg todo) (set_heap h s)))
      | _ => None
      end
  | LoopDone order =>
      match loop s, cancelled (room s) with
      | Selecting, true =>
          if decide (range_order (room s) order)
          then Some (do s' <- cleanup order s; Done (set_loop Returned s'))
          else None
      | _, _ => None
      end
  end.

(** A sequence of moves, as far as it goes without a panic. *)
Fixpoint run (rid : RoomId) (acts : list Action) (s : State) : option (outcome State) :=
  match acts with
  | [] => Some (Done s)
  | a :: rest =>
      match exec rid a s with
      | Some (Done s') => run rid rest s'
      | other => match rest with [] => other | _ => None end
      end
  end.

Inductive reachable (rid : RoomId) : State -> Prop :=
  | reachable_start : reachable rid started_room
  | reachable_step s a s' :
      reachable rid s -> exec rid a s = Some (Done s') -> reachable rid s'.

(** ** The hub *)

Record Hub : Type := mkHub {
  Rooms : gmap string RoomId;        (* map[string]*Room *)
  rooms : gmap RoomId Room;          (* the room objects *)
  running : gset RoomId;             (* rooms whose Run() has been called *)
  watchers : list (RoomId * string)  (* goroutines waiting on room.ctx.Done() *)
}.

(** The part of [getRoom] under the write lock. *)
Definition getRoom_locked (key : string) (h : Hub) : option RoomId * Hub :=
  match Rooms h !! key with
  | Some r => (Some r, h)
  | None =>
      let r := fresh (dom (rooms h)) in
      (Some r, {| Rooms := <[key := r]> (Rooms h);
                  rooms := <[r := NewRoom]> (rooms h);
                  running := {[r]} ∪ running h;
                  watchers := (r, key) :: watchers h |})
  end.

(** [func (h *Hub) getRoom(key string) *Room]; [None] is the nil result. *)
Definition getRoom (key : string) (h : Hub) : option RoomId * Hub :=
  if decide (key = EmptyString) then (None, h)
  else
    match Rooms h !! key with
    | Some r => (Some r, h)
    | None => getRoom_locked key h
    end.

(** ** Helpers used to state the properties *)

(** The client that [close()] leaves: a pending message is received and
    dropped, otherwise the queue ends up closed; the connection is
    closed in both cases. *)
Definition after_close (c : Client) : Client :=
  {| Conn_ := {| conn_closed := true |};
     Room_ := Room_ c;
     send := match buf (send c) with
             | _ :: rest => {| buf := rest; cap := cap (send c); chan_closed := chan_closed (send c) |}
             | [] => {| buf := []; cap := cap (send c); chan_closed := true |}
             end |}.

(** The client that one turn of the broadcast loop leaves. *)
Definition after_sendTo (msg : Message) (d : ClientId) (c : Client) : Client :=
  if decide (Some d = From_ msg) then c
  else match try_send msg (send c) with
       | Sent ch => {| Conn_ := Conn_ c; Room_ := Room_ c; send := ch |}
       | WouldBlock => after_close c
       | SendPanics => c
       end.

(** The client that one turn of the teardown loop leaves. *)
Definition after_cleanup (c : Client) : Client :=
  {| Conn_ := {| conn_closed := true |}; Room_ := Room_ c;
     send := {| buf := buf (send c); cap := cap (send c); chan_closed := true |} |}.

(** Every key of the client map that a broadcast of [msg] sends to
    denotes a client whose queue is open. *)
Definition receivers_open (msg : Message) (s : State) : Prop :=
  ∀ d, d ∈ members (room s) -> Some d ≠ From_ msg ->
    ∃ c, heap s !! d = Some c ∧ chan_closed (send c) = false.

(** Every key of the client map denotes a client whose queue is open. *)
Definition members_open (s : State) : Prop :=
  ∀ d, d ∈ members (room s) ->
    ∃ c, heap s !! d = Some c ∧ chan_closed (send c) = false.

Definition full (ch : Chan) : Prop := cap ch <= length (buf ch).

Definition with_From (o : option ClientId) (m : Message) : Message :=
  {| Type_ := Type_ m; From_ := o; Time_ := Time_ m;
     Timestamp := Timestamp m; payload := payload m |}.

Definition with_Timestamp (t : GoTime) (m : Message) : Message :=
  {| Type_ := Type_ m; From_ := From_ m; Time_ := Time_ m;
     Timestamp := t; payload := payload m |}.

Definition seek_message : Message :=
  {| Type_ := CommandSeek; From_ := None; Time_ := 42.5%float;
     Timestamp := 0%Z; payload := EmptyString |}.

Definition open_client (pending : list Message) : Client :=
  {| Conn_ := {| conn_closed := false |}; Room_ := 1%positive;
     send := {| buf := pending; cap := 10; chan_closed := false |} |}.

(** The kinds listed in the switch of [receiveHandler]. *)
Definition accepted_commands : list CommandType :=
  [CommandPlay; CommandPause; CommandSeek; CommandSync; CommandVideoChange].

(** The same turn of the write loop, for a message of another origin. *)
Definition relabel (origin : Message -> option ClientId) (ev : SendEvent) : SendEvent :=
  match ev with
  | QueueMessage m written => QueueMessage (with_From (origin m) m) written
  | QueueClosed => QueueClosed
  | Tick written => Tick written
  end.

Definition error_message : Message :=
  {| Type_ := CommandError; From_ := None; Time_ := 0%float;
     Timestamp := 0%Z; payload := EmptyString |}.

(** A hub that holds one room. *)
Definition one_room_hub : Hub :=
  {| Rooms := {["abc" := 1%positive]};
     rooms := {[1%positive := NewRoom]};
     running := {[1%positive]};
     watchers := [(1%positive, "abc")] |}.

(** Some concrete rooms, used as instances below. *)

Definition full_queue : list Message := replicate 10 seek_message.

Definition closed_client : Client :=
  {| Conn_ := {| conn_closed := true |}; Room_ := 1%positive;
     send := {| buf := []; cap := 10; chan_closed := true |} |}.

Definition room_of (cs : gset ClientId) : Room :=
  {| unregister := []; message := []; clients := Some cs;
     cancelled := false; cleaned := false |}.

Definition state_of (cs : gset ClientId) (h : gmap ClientId Client) : State :=
  {| room := room_of cs; heap := h; receiving := cs; sending := cs; loop := Selecting |}.

(** Three clients; the queue of the second one is full. *)
Definition saturated_state : State :=
  state_of {[1%positive; 2%positive; 3%positive]}
    (<[1%positive := open_client []]>
       (<[2%positive := open_client full_queue]>
          (<[3%positive := open_client []]> ∅))).

(** A single client, whose queue is full. *)
Definition slow_reader_state : State :=
  state_of {[1%positive]} (<[1%positive := open_client full_queue]> ∅).

(** Two clients; the first one has closed itself already. *)
Definition stale_state : State :=
  state_of {[1%positive; 2%positive]}
    (<[1%positive := closed_client]> (<[2%positive := open_client []]> ∅)).

(** The state in which a run ends; [s] itself if it panics. *)
Definition end_state (run : outcome State) (s : State) : State :=
  match run with Done s' => s' | Panicked _ => s end.

Definition from_first : Message := with_From (Some 1%positive) seek_message.
Definition from_second : Message := with_From (Some 2%positive) seek_message.

(** The first room after its teardown. *)
Definition torn_down_state : State :=
  end_state (cleanup [1; 2; 3]%positive saturated_state) saturated_state.

(** Some concrete runs of a room, from its start. *)

Definition second_sends : Action := Receive 2%positive (ReadFrame seek_message 7%Z).

(** A frame of the second client is read and broadcast, over the order
    first client, second client, without a drop. *)
Definition relayed_frame : list Action :=
  [second_sends; LoopMessage [1; 2]%positive; LoopVisit; LoopVisit; LoopVisit].

(** The first client reads nothing while ten frames of the second one
    fill its queue; the eleventh broadcast finds the queue full, and
    before the loop gets to close the client, the client's write loop
    has taken the ten messages: the close then finds the queue empty
    and closes it. A twelfth frame is at the head of the room's queue. *)
Definition drop_run : list Action :=
  [Connect; Connect]
  ++ concat (replicate 10 relayed_frame)
  ++ [second_sends; LoopMessage [1; 2]%positive; LoopVisit]
  ++ replicate 10 (SendTurn 1%positive)
  ++ [LoopDrop; LoopVisit; LoopVisit]
  ++ [second_sends; LoopMessage [1; 2]%positive].

(** The eleventh broadcast finds the queue of the first client full and
    closes the client; the read loop of that client then ends on the
    closed connection, and the loop serves its request to unregister. *)
Definition drop_then_unregister_run : list Action :=
  [Connect; Connect]
  ++ concat (replicate 10 relayed_frame)
  ++ [second_sends; LoopMessage [1; 2]%positive; LoopVisit; LoopDrop; LoopVisit; LoopVisit]
  ++ [Receive 1%positive ReadError; LoopUnregister].

(** The read loop of the first client ends on an error, closing the
    client; the loop takes a frame of the second client before the
    request to unregister the first. *)
Definition exit_run : list Action :=
  [Connect; Connect; Receive 1%positive ReadError; second_sends;
   LoopMessage [2; 1]%positive; LoopVisit].

(** The only client leaves, which cancels the room; the loop admits a
    second client before it sees the cancellation, and that client's
    read loop ends on an error. *)
Definition late_admission_run : list Action :=
  [Connect; Receive 1%positive ReadError; LoopUnregister; Connect;
   Receive 2%positive ReadError].

(** The first client closes itself while a message is pending in its
    queue: a frame of the second client has been broadcast, then the
    read loop of the first client ends on an error. *)
Definition pending_close_run : list Action :=
  [Connect; Connect] ++ relayed_frame ++ [Receive 1%positive ReadError].

(** What the teardown leaves behind, in every state a room gets to:
    the flag is set exactly when the client map is nil, and exactly when
    the goroutine of [Run] has returned. *)
Definition torn_down_consistent (s : State) : Prop :=
  (cleaned (room s) = true ↔ clients (room s) = None)
  ∧ (cleaned (room s) = true ↔ loop s = Returned).

(** The moves of the loop inside [sendMessage]. *)
Definition broadcast_move (a : Action) : Prop := a = LoopVisit ∨ a = LoopDrop.

(** ** The state of a room at work, as the moves keep it *)

(** [close()] called [n] times in a row. *)
Fixpoint close_times (n : nat) (c : Client) : outcome Client :=
  match n with
  | 0 => Done c
  | S n' => do c' <- Client_close c; close_times n' c'
  end.

(** The clients of a list admitted one after the other. *)
Fixpoint registerClients (cs : list ClientId) (s : State) : outcome State :=
  match cs with
  | [] => Done s
  | c :: rest => do s' <- registerClient c s; registerClients rest s'
  end.

(** The identifier denotes a client object. *)
Definition known (s : State) (c : ClientId) : Prop := is_Some (heap s !! c).

(** A message as the read loop of some client of the room submits it. *)
Definition relayed (s : State) (m : Message) : Prop :=
  validCommand (Type_ m) = true ∧ ∃ c, From_ m = Some c ∧ known s c.

(** The message the loop is broadcasting, and the clients it still has
    in hand for it. *)
Definition loop_message (l : LoopState) : option Message :=
  match l with
  | Sending msg _ => Some msg
  | Dropping msg _ _ => Some msg
  | _ => None
  end.

Definition loop_clients (l : LoopState) : list ClientId :=
  match l with
  | Sending _ todo => todo
  | Dropping _ c todo => c :: todo
  | _ => []
  end.

Definition client_sound (rid : RoomId) (s : State) (c : ClientId) (cl : Client) : Prop :=
  Room_ cl = rid
  ∧ cap (send cl) = 10
  ∧ length (buf (send cl)) <= 10
  ∧ (chan_closed (send cl) = true -> conn_closed (Conn_ cl) = true)
  ∧ ∀ m, m ∈ buf (send cl) -> relayed s m ∧ From_ m ≠ Some c.

Definition sound (rid : RoomId) (s : State) : Prop :=
  (∀ c, c ∈ members (room s) -> known s c)
  ∧ (∀ c, c ∈ unregister (room s) -> known s c)
  ∧ (∀ c, c ∈ receiving s -> known s c)
  ∧ (∀ c, c ∈ sending s -> known s c)
  ∧ (∀ c, c ∈ loop_clients (loop s) -> known s c)
  ∧ length (unregister (room s)) <= 10
  ∧ length (message (room s)) <= 10
  ∧ (∀ m, m ∈ message (room s) -> relayed s m)
  ∧ (∀ m, loop_message (loop s) = Some m -> relayed s m)
  ∧ (∀ c cl, heap s !! c = Some cl -> client_sound rid s c cl).

(** The moves of the goroutine of [Run]. *)
Definition loop_move (a : Action) : Prop :=
  match a with
  | Connect | LoopUnregister | LoopMessage _ | LoopVisit | LoopDrop | LoopDone _ => True
  | Receive _ _ | SendTurn _ | SendReturns _ => False
  end.

(** The state a run from the start of a room ends in; the start itself
    when the run cannot be made or panics. *)
Definition run_state (rid : RoomId) (acts : list Action) : State :=
  match run rid acts started_room with
  | Some (Done s) => s
  | _ => started_room
  end.

(** The client is one a broadcast of [msg] sends to, and its queue is
    closed. *)
Definition closed_receiver (msg : Message) (s : State) (d : ClientId) : bool :=
  bool_decide (Some d ≠ From_ msg)
  && match heap s !! d with
     | Some c => chan_closed (send c)
     | None => false
     end.

(** The client's queue is closed. *)
Definition closed_member (s : State) (d : ClientId) : bool :=
  match heap s !! d with
  | Some c => chan_closed (send c)
  | None => false
  end.

(** A turn of the write loop's [select] after which the loop returns:
    the queue is closed, or the write of a ping or of a marshalled
    message fails. *)
Definition stops (encodeString : string -> string)
    (encodeFloat : float64 -> option string) (encodeTime : GoTime -> option string)
    (isEmptyValue : float64 -> bool) (ev : SendEvent) : bool :=
  match ev with
  | QueueClosed => true
  | Tick written => negb written
  | QueueMessage m written =>
      match Marshal encodeString encodeFloat encodeTime isEmptyValue m with
      | Some _ => negb written
      | None => false
      end
  end.

(** The message that a frame of the read loop stands for, when it is
    one. *)
Definition frame_of (c : ClientId) (ev : ReadEvent) (m : Message) : Prop :=
  ∃ msg now, ev = ReadFrame msg now ∧ validCommand (Type_ msg) = true ∧ m = stamp c now msg.

(** The frames a turn of the write loop puts on the connection. *)
Definition frames_of (encodeString : string -> string)
    (encodeFloat : float64 -> option string) (encodeTime : GoTime -> option string)
    (isEmptyValue : float64 -> bool) (ev : SendEvent) : list Frame :=
  match ev with
  | QueueMessage m true =>
      match Marshal encodeString encodeFloat encodeTime isEmptyValue m with
      | Some data => [TextMessage data]
      | None => []
      end
  | Tick true => [PingMessage]
  | _ => []
  end.

(** ** The hub at work *)

(** [var hub = Hub{Rooms: make(map[string]*Room)}] *)
Definition empty_hub : Hub :=
  {| Rooms := ∅; rooms := ∅; running := ∅; watchers := [] |}.

(** The goroutine that [getRoom] starts for a new room:
    [<-room.ctx.Done()], then [delete(h.Rooms, key)] under the lock.
    [None] while it waits (or when there is no such goroutine). *)
Definition watcher (r : RoomId) (key : string) (h : Hub) : option Hub :=
  if decide ((r, key) ∈ watchers h) then
    match rooms h !! r with
    | Some R =>
        if cancelled R
        then Some {| Rooms := delete key (Rooms h);
                     rooms := rooms h;
                     running := running h;
                     watchers := filter (λ w, w ≠ (r, key)) (watchers h) |}
        else None
    | None => None
    end
  else None.

(** The moves that change a hub: a call of [getRoom], a change of a
    room object by the goroutines of that room (a cancelled context
    stays cancelled), and the end of a watcher. *)
Inductive HubAction : Type :=
  | Resolve (key : string)
  | RoomChanges (r : RoomId) (R : Room)
  | WatcherEnds (r : RoomId) (key : string).

Definition hub_exec (a : HubAction) (h : Hub) : option Hub :=
  match a with
  | Resolve key => Some (getRoom key h).2
  | RoomChanges r R =>
      match rooms h !! r with
      | Some R0 =>
          if decide (cancelled R0 = true -> cancelled R = true)
          then Some {| Rooms := Rooms h; rooms := <[r := R]> (rooms h);
                       running := running h; watchers := watchers h |}
          else None
      | None => None
      end
  | WatcherEnds r key => watcher r key h
  end.

Inductive hub_reachable : Hub -> Prop :=
  | hub_reachable_start : hub_reachable empty_hub
  | hub_reachable_step h a h' :
      hub_reachable h -> hub_exec a h = Some h' -> hub_reachable h'.

(** Every entry of the directory has a key that is not empty and a
    room object whose loop has been started and whose watcher is still
    waiting; every waiting watcher is the one of an entry; no two keys
    share a room. *)
Definition hub_sound (h : Hub) : Prop :=
  (∀ k r, Rooms h !! k = Some r ->
     k ≠ EmptyString ∧ is_Some (rooms h !! r) ∧ r ∈ running h ∧ (r, k) ∈ watchers h)
  ∧ (∀ r k, (r, k) ∈ watchers h -> Rooms h !! k = Some r)
  ∧ NoDup (watchers h)
  ∧ (∀ k1 k2 r, Rooms h !! k1 = Some r -> Rooms h !! k2 = Some r -> k1 = k2).



(** A sequence of moves of the hub, as far as each can be made. *)
Fixpoint hub_run (acts : list HubAction) (h : Hub) : option Hub :=
  match acts with
  | [] => Some h
  | a :: rest =>
      match hub_exec a h with
      | Some h' => hub_run rest h'
      | None => None
      end
  end.

(** The hub a run from the empty hub ends in; the empty hub itself when
    the run cannot be made. *)
Definition hub_state (acts : list HubAction) : Hub :=
  default empty_hub (hub_run acts empty_hub).

(** A room whose context has been cancelled. *)
Definition cancelled_room : Room :=
  {| unregister := []; message := []; clients := Some ∅;
     cancelled := true; cleaned := false |}.

(** ** The records of the database layer *)

Module database.

Record User : Type := mkUser {
  User_ID : Z;           (* ID int `json:"id"` *)
  User_Name : string     (* Name string `json:"name"` *)
}.

(** [sql.NullString] *)
Record NullString : Type := mkNullString {
  String_ : string;
  Valid : bool
}.

Record Room : Type := mkRoom {
  ID : Z;                (* `json:"id"` *)
  Key : string;          (* `json:"key"` *)
  Video : NullString;    (* `json:"video"` *)
  Users : list User      (* `json:"users"` *)
}.

(** The loop of [removeDuplicateRooms]: [seen] is the map of the IDs
    met so far, [result] the slice built so far. *)
Fixpoint removeDuplicateRooms_loop (seen : gset Z) (result : list Room) (rooms : list Room)
  : list Room :=
  match rooms with
  | [] => result
  | room :: rest =>
      if decide (ID room ∈ seen)
      then removeDuplicateRooms_loop seen result rest
      else removeDuplicateRooms_loop ({[ID room]} ∪ seen) (result ++ [room]) rest
  end.

(** [func (db *DB) removeDuplicateRooms(rooms []Room) []Room] *)
Definition removeDuplicateRooms (rooms : list Room) : list Room :=
  removeDuplicateRooms_loop ∅ [] rooms.

End database.

Definition sample_rooms : list database.Room :=
  [ {| database.ID := 7; database.Key := "abc";
       database.Video := {| database.String_ := EmptyString; database.Valid := false |};
       database.Users := [] |};
    {| database.ID := 3; database.Key := "xyz";
       database.Video := {| database.String_ := "a.mp4"; database.Valid := true |};
       database.Users := [] |};
    {| database.ID := 7; database.Key := "other";
       database.Video := {| database.String_ := EmptyString; database.Valid := false |};
       database.Users := [] |} ].

(** * Properties *)

(** ** Closing a client *)

Lemma Client_close_Done (c : Client) : Client_close c = Done (after_close c).
Proof.
  unfold Client_close, after_close, try_recv, close_chan.
  destruct c as [cn r [b k cl]]; simpl.
  destruct b as [|m rest]; simpl; [destruct cl|]; reflexivity.
Qed.

Lemma after_close_conn (c : Client) : conn_closed (Conn_ (after_close c)) = true.
Proof. reflexivity. Qed.

Lemma after_close_drained (c : Client) :
  buf (send c) = [] -> chan_closed (send (after_close c)) = true.
Proof. unfold after_close. intros ->. reflexivity. Qed.

Lemma after_close_pending (c : Client) (m : Message) (rest : list Message) :
  buf (send c) = m :: rest ->
  send (after_close c) = {| buf := rest; cap := cap (send c); chan_closed := chan_closed (send c) |}.
Proof. unfold after_close. intros ->. reflexivity. Qed.

(** Once the queue is closed and drained and the connection closed,
    closing again changes nothing. *)
Lemma after_close_fixpoint (c : Client) :
  buf (send c) = [] -> after_close (after_close c) = after_close c.
Proof. unfold after_close. intros ->. reflexivity. Qed.

Lemma after_close_suffix (c : Client) :
  buf (send (after_close c)) `suffix_of` buf (send c).
Proof.
  unfold after_close. destruct (buf (send c)) as [|m rest]; simpl.
  - reflexivity.
  - by apply suffix_cons_r.
Qed.

Lemma close_client_Done (d : ClientId) (h : gmap ClientId Client) (c : Client) :
  h !! d = Some c -> close_client d h = Done (<[d := after_close c]> h).
Proof. unfold close_client. intros ->. by rewrite Client_close_Done. Qed.

(** C2: [close()] on a client whose open queue holds a pending message
    receives that message instead of closing the queue: the queue is
    still open afterwards, and it is the second [close()] that closes
    it, so the second call does change the state. A room gets there from
    its start: a frame of the second client is queued for the first
    one, whose read loop then ends and closes the client. *)
Theorem Client_close_pending_message :
  (∃ c1 c2,
     Client_close (open_client [seek_message]) = Done c1
     ∧ chan_closed (send c1) = false
     ∧ buf (send c1) = []
     ∧ conn_closed (Conn_ c1) = true
     ∧ Client_close c1 = Done c2
     ∧ chan_closed (send c2) = true
     ∧ c2 ≠ c1)
  ∧ (∃ s c,
       run 1%positive pending_close_run started_room = Some (Done s)
       ∧ heap s !! 1%positive = Some c
       ∧ chan_closed (send c) = false
       ∧ conn_closed (Conn_ c) = true).
Proof.
  split.
  - exists (after_close (open_client [seek_message])),
      (after_close (after_close (open_client [seek_message]))).
    rewrite !Client_close_Done. repeat split. discriminate.
  - eexists _, _. split; [vm_compute; reflexivity|].
    split; [vm_compute; reflexivity|]. split; reflexivity.
Qed.

(** ** Broadcast *)

Lemma sendTo_origin (msg : Message) (d : ClientId) (h : gmap ClientId Client) :
  From_ msg = Some d -> sendTo msg d h = Done h.
Proof. unfold sendTo. intros ->. by rewrite decide_True. Qed.

(** A turn of the loop touches no object but the client it visits. *)
Lemma sendTo_other (msg : Message) (d e : ClientId) (h h' : gmap ClientId Client) :
  sendTo msg d h = Done h' -> e ≠ d -> h' !! e = h !! e.
Proof.
  unfold sendTo. intros Hrun Hne.
  case_decide; [by inversion Hrun|].
  destruct (h !! d) as [c|] eqn:Hd; [|discriminate].
  destruct (try_send msg (send c)).
  - inversion Hrun. by rewrite lookup_insert_ne.
  - rewrite (close_client_Done _ _ _ Hd) in Hrun. inversion Hrun.
    by rewrite lookup_insert_ne.
  - discriminate.
Qed.

Lemma try_send_open (msg : Message) (ch : Chan) :
  chan_closed ch = false -> try_send msg ch ≠ SendPanics.
Proof. unfold try_send. intros ->. by case_decide. Qed.

Lemma try_send_closed (msg : Message) (ch : Chan) :
  chan_closed ch = true -> try_send msg ch = SendPanics.
Proof. unfold try_send. by intros ->. Qed.

Lemma try_send_full (msg : Message) (ch : Chan) :
  chan_closed ch = false -> full ch -> try_send msg ch = WouldBlock.
Proof.
  unfold try_send, full. intros -> Hfull. rewrite decide_False; [done|lia].
Qed.

Lemma try_send_room (msg : Message) (ch : Chan) :
  chan_closed ch = false -> length (buf ch) < cap ch ->
  try_send msg ch = Sent {| buf := buf ch ++ [msg]; cap := cap ch; chan_closed := false |}.
Proof. unfold try_send. intros -> Hlt. by rewrite decide_True. Qed.

(** A turn at a client whose queue is open completes, and leaves that
    client as [after_sendTo] says. *)
Lemma sendTo_Done (msg : Message) (d : ClientId) (h : gmap ClientId Client) (c : Client) :
  h !! d = Some c ->
  (Some d ≠ From_ msg -> chan_closed (send c) = false) ->
  sendTo msg d h = Done (<[d := after_sendTo msg d c]> h).
Proof.
  unfold sendTo, after_sendTo. intros Hd Hopen.
  case_decide; [by rewrite insert_id|].
  rewrite Hd. specialize (Hopen H).
  pose proof (try_send_open msg _ Hopen) as Hnp.
  destruct (try_send msg (send c)); [done| |done].
  by apply close_client_Done.
Qed.

(** A loop over clients visited once each, whose turns touch only the
    client they visit: it completes when every turn can, and each
    visited client ends up as its own turn leaves it, whatever the
    order. *)
Lemma range_clients_Done
    (body : ClientId -> gmap ClientId Client -> outcome (gmap ClientId Client))
    (after : ClientId -> Client -> Client)
    (ready : ClientId -> option Client -> Prop) :
  (∀ d h, ready d (h !! d) ->
     ∃ h1, body d h = Done h1
       ∧ h1 !! d = after d <$> h !! d
       ∧ ∀ e, e ≠ d -> h1 !! e = h !! e) ->
  ∀ (order : list ClientId) (h : gmap ClientId Client),
    NoDup order ->
    (∀ d, d ∈ order -> ready d (h !! d)) ->
    ∃ h', range_clients body order h = Done h'
      ∧ ∀ d, h' !! d = if decide (d ∈ order) then after d <$> h !! d else h !! d.
Proof.
  intros Hbody. induction order as [|a rest IH]; intros h Hnd Hready; simpl.
  - exists h. split; [done|]. intros d.
    destruct (decide (d ∈ [])) as [Hd|_]; [by apply elem_of_nil in Hd|done].
  - apply NoDup_cons in Hnd as [Ha Hnd].
    destruct (Hbody a h) as (h1 & Hrun & Hat & Hother); [apply Hready; by left|].
    rewrite Hrun; simpl.
    destruct (IH h1 Hnd) as (h' & Hrest & Hlook).
    { intros d Hd. rewrite Hother; [|by intros ->]. apply Hready. by right. }
    exists h'. split; [done|]. intros d. rewrite Hlook.
    destruct (decide (d = a)) as [->|Hda].
    + rewrite decide_False by done. rewrite decide_True by left. done.
    + rewrite Hother by done.
      destruct (decide (d ∈ rest)) as [Hin|Hnin].
      * rewrite decide_True by (by right). done.
      * rewrite decide_False; [done|]. by intros [?|?]%elem_of_cons.
Qed.

Lemma sendTo_turn (msg : Message) (d : ClientId) (h : gmap ClientId Client) :
  (Some d ≠ From_ msg -> ∃ c, h !! d = Some c ∧ chan_closed (send c) = false) ->
  ∃ h1, sendTo msg d h = Done h1
    ∧ h1 !! d = after_sendTo msg d <$> h !! d
    ∧ ∀ e, e ≠ d -> h1 !! e = h !! e.
Proof.
  intros Hopen.
  assert (∃ h1, sendTo msg d h = Done h1
                ∧ h1 !! d = after_sendTo msg d <$> h !! d) as (h1 & Hrun & Hat).
  { destruct (decide (Some d = From_ msg)) as [Heq|Hne].
    - exists h. split; [by apply sendTo_origin|].
      destruct (h !! d) as [c|]; simpl; [|done].
      unfold after_sendTo. by rewrite decide_True.
    - destruct (Hopen Hne) as (c & Hc & Hcl).
      exists (<[d := after_sendTo msg d c]> h). split.
      + by apply sendTo_Done.
      + by rewrite lookup_insert_eq, Hc. }
  exists h1. split; [done|]. split; [done|].
  intros e He. by apply (sendTo_other _ _ _ _ _ Hrun).
Qed.

Lemma range_order_NoDup (r : Room) (order : list ClientId) :
  range_order r order -> NoDup order.
Proof. unfold range_order. intros ->. apply NoDup_elements. Qed.

Lemma range_order_elem_of (r : Room) (order : list ClientId) (d : ClientId) :
  range_order r order -> d ∈ order ↔ d ∈ members r.
Proof. unfold range_order. intros ->. apply elem_of_elements. Qed.

(** A broadcast to receivers whose queues are all open completes; it
    leaves the room itself as it was and every client as its own turn
    of the loop leaves it, independently of the order of the iteration
    and of the other clients. *)
Lemma sendMessage_Done (order : list ClientId) (msg : Message) (s : State) :
  range_order (room s) order ->
  receivers_open msg s ->
  ∃ s', sendMessage order msg s = Done s'
    ∧ room s' = room s
    ∧ ∀ d, heap s' !! d =
        if decide (d ∈ members (room s)) then after_sendTo msg d <$> heap s !! d
        else heap s !! d.
Proof.
  intros Hord Hopen. unfold sendMessage.
  destruct (range_clients_Done (sendTo msg) (after_sendTo msg)
              (λ d o, Some d ≠ From_ msg ->
                      ∃ c, o = Some c ∧ chan_closed (send c) = false)
              (sendTo_turn msg) order (heap s)) as (h' & Hrun & Hlook).
  - by eapply range_order_NoDup.
  - intros d Hd. apply Hopen. by apply (range_order_elem_of _ _ _ Hord).
  - exists (set_heap h' s). rewrite Hrun. split; [done|]. split; [done|].
    intros d. simpl. rewrite Hlook.
    destruct (decide (d ∈ order)) as [Hin|Hnin].
    + rewrite decide_True; [done|]. by apply (range_order_elem_of _ _ _ Hord).
    + rewrite decide_False; [done|]. by rewrite <- (range_order_elem_of _ _ _ Hord).
Qed.

Lemma after_sendTo_room (msg : Message) (d : ClientId) (c : Client) :
  Some d ≠ From_ msg ->
  chan_closed (send c) = false ->
  length (buf (send c)) < cap (send c) ->
  after_sendTo msg d c =
    {| Conn_ := Conn_ c; Room_ := Room_ c;
       send := {| buf := buf (send c) ++ [msg]; cap := cap (send c); chan_closed := false |} |}.
Proof.
  intros Hne Hopen Hroom. unfold after_sendTo.
  rewrite decide_False by done. by rewrite try_send_room.
Qed.

Lemma after_sendTo_full (msg : Message) (d : ClientId) (c : Client) :
  Some d ≠ From_ msg ->
  chan_closed (send c) = false ->
  full (send c) ->
  after_sendTo msg d c = after_close c.
Proof.
  intros Hne Hopen Hfull. unfold after_sendTo.
  rewrite decide_False by done. by rewrite try_send_full.
Qed.

(** The loop of [sendMessage] leaves the sender of the message alone,
    over any sequence of clients. *)
Lemma range_sendTo_origin (msg : Message) (c : ClientId) (order : list ClientId) :
  From_ msg = Some c ->
  ∀ h h' : gmap ClientId Client,
    range_clients (sendTo msg) order h = Done h' -> h' !! c = h !! c.
Proof.
  intros Hfrom. induction order as [|a rest IH]; intros h h' Hrun; simpl in Hrun.
  - by inversion Hrun.
  - destruct (sendTo msg a h) as [h1|] eqn:Hturn; [|discriminate]. simpl in Hrun.
    rewrite (IH _ _ Hrun).
    destruct (decide (c = a)) as [->|Hne].
    + rewrite (sendTo_origin _ _ _ Hfrom) in Hturn. by inversion Hturn.
    + by apply (sendTo_other _ _ _ _ _ Hturn).
Qed.

(** C6: a broadcast never puts a message on the queue of the client
    recorded as its origin. The turn of the loop at the origin completes
    without touching any client, as a move of the loop it only passes on
    to the next client, and a broadcast that completes leaves the origin
    exactly as it was. The last part holds for every sequence of clients
    the loop may visit, hence also at every intermediate point of a
    broadcast. *)
Theorem sendMessage_skips_origin
    (order : list ClientId) (msg : Message) (c : ClientId) (s s' : State) :
  From_ msg = Some c ->
  (∀ h, sendTo msg c h = Done h)
  ∧ (∀ rid todo,
       exec rid LoopVisit (set_loop (Sending msg (c :: todo)) s)
       = Some (Done (set_loop (Sending msg todo) s)))
  ∧ (sendMessage order msg s = Done s' -> heap s' !! c = heap s !! c).
Proof.
  intros Hfrom. split; [|split].
  - intros h. by apply sendTo_origin.
  - intros rid todo. simpl. by rewrite decide_True.
  - unfold sendMessage. intros Hrun.
    destruct (range_clients (sendTo msg) order (heap s)) as [h'|] eqn:Hloop; [|discriminate].
    inversion Hrun; subst; simpl. by eapply range_sendTo_origin.
Qed.

Lemma sendMessage_skips_origin_witness :
  heap (end_state (sendMessage [3; 2; 1]%positive from_first saturated_state) saturated_state)
    !! 1%positive
  = heap saturated_state !! 1%positive.
Proof.
  apply (sendMessage_skips_origin [3; 2; 1]%positive from_first 1%positive saturated_state).
  - reflexivity.
  - vm_compute. reflexivity.
Defined.

(** C1, as stated, fails: a broadcast that finds the only client's
    queue full completes with that client still in the client set and
    its queue still open; only its connection has been closed. *)
Lemma sendMessage_full_queue_stays_member :
  full (send (open_client full_queue))
  ∧ ∃ s' c,
      sendMessage [1%positive] seek_message slow_reader_state = Done s'
      ∧ 1%positive ∈ members (room s')
      ∧ heap s' !! 1%positive = Some c
      ∧ chan_closed (send c) = false
      ∧ conn_closed (Conn_ c) = true.
Proof.
  split; [unfold full; simpl; lia|].
  eexists _, _. split; [vm_compute; reflexivity|].
  split; [vm_compute; reflexivity|].
  split; [vm_compute; reflexivity|]. split; reflexivity.
Qed.

(** C1, amended: a broadcast whose receivers all have open queues
    completes, so it never waits for a receiver. A receiver whose queue
    is full is not sent the message: its connection is closed, nothing
    is added to its queue, and it stays in the client set, which the
    broadcast leaves as it was. Every other client ends up as its own
    turn of the loop leaves it, as if the slow client were not there:
    one with room in its queue has the message appended to it. *)
Theorem sendMessage_full_queue
    (order : list ClientId) (msg : Message) (s : State) (c : ClientId) (cl : Client) :
  range_order (room s) order ->
  receivers_open msg s ->
  c ∈ members (room s) ->
  Some c ≠ From_ msg ->
  heap s !! c = Some cl ->
  full (send cl) ->
  ∃ s', sendMessage order msg s = Done s'
    ∧ room s' = room s
    ∧ c ∈ members (room s')
    ∧ (∃ cl', heap s' !! c = Some cl'
         ∧ conn_closed (Conn_ cl') = true
         ∧ buf (send cl') `suffix_of` buf (send cl))
    ∧ (∀ d cd, d ≠ c -> d ∈ members (room s) -> heap s !! d = Some cd ->
         heap s' !! d = Some (after_sendTo msg d cd))
    ∧ (∀ d cd, d ≠ c -> d ∈ members (room s) -> heap s !! d = Some cd ->
         Some d ≠ From_ msg -> length (buf (send cd)) < cap (send cd) ->
         heap s' !! d =
           Some {| Conn_ := Conn_ cd; Room_ := Room_ cd;
                   send := {| buf := buf (send cd) ++ [msg]; cap := cap (send cd);
                              chan_closed := false |} |})
    ∧ (∀ d, d ∉ members (room s) -> heap s' !! d = heap s !! d).
Proof.
  intros Hord Hopen Hc Hne Hcl Hfull.
  destruct (sendMessage_Done order msg s Hord Hopen) as (s' & Hrun & Hroom & Hlook).
  exists s'. split; [done|]. split; [done|]. split; [by rewrite Hroom|].
  destruct (Hopen c Hc Hne) as (cl0 & Hcl0 & Hclosed).
  rewrite Hcl in Hcl0. inversion Hcl0; subst cl0.
  split; [|split; [|split]].
  - exists (after_close cl). split; [|split].
    + rewrite Hlook, decide_True, Hcl by done. simpl.
      by rewrite after_sendTo_full.
    + apply after_close_conn.
    + apply after_close_suffix.
  - intros d cd Hd Hin Hcd. by rewrite Hlook, decide_True, Hcd.
  - intros d cd Hd Hin Hcd Hdne Hlt.
    destruct (Hopen d Hin Hdne) as (cd0 & Hcd0 & Hdopen).
    rewrite Hcd in Hcd0. inversion Hcd0; subst cd0.
    rewrite Hlook, decide_True, Hcd by done. simpl.
    by rewrite after_sendTo_room.
  - intros d Hd. by rewrite Hlook, decide_False.
Qed.

Lemma saturated_state_order :
  range_order (room saturated_state) [1; 2; 3]%positive.
Proof.
  unfold range_order.
  replace (elements (members (room saturated_state))) with (rev [1; 2; 3]%positive)
    by (vm_compute; reflexivity).
  apply Permutation_rev.
Defined.

Lemma saturated_state_receivers_open : receivers_open from_first saturated_state.
Proof.
  intros d Hd Hne. unfold members in Hd; simpl in Hd. set_unfold in Hd.
  destruct Hd as [[-> | ->] | ->].
  - by destruct Hne.
  - exists (open_client full_queue). split; reflexivity.
  - exists (open_client []). split; reflexivity.
Defined.

Lemma sendMessage_full_queue_witness :
  ∃ s', sendMessage [1; 2; 3]%positive from_first saturated_state = Done s'
    ∧ room s' = room saturated_state
    ∧ 2%positive ∈ members (room s')
    ∧ (∃ cl', heap s' !! 2%positive = Some cl'
         ∧ conn_closed (Conn_ cl') = true
         ∧ buf (send cl') `suffix_of` full_queue)
    ∧ heap s' !! 3%positive = Some (open_client [from_first]).
Proof.
  destruct (sendMessage_full_queue [1; 2; 3]%positive from_first saturated_state
              2%positive (open_client full_queue))
    as (s' & Hrun & Hroom & Hin & Hslow & _ & Hroomy & _).
  - exact saturated_state_order.
  - exact saturated_state_receivers_open.
  - vm_compute. reflexivity.
  - discriminate.
  - reflexivity.
  - unfold full. simpl. lia.
  - exists s'. repeat (split; [assumption|]).
    apply (Hroomy 3%positive (open_client [])).
    + discriminate.
    + vm_compute. reflexivity.
    + reflexivity.
    + discriminate.
    + simpl. lia.
Defined.

(** After a drop, the client leaves the set when the loop serves the
    request of its read loop, which the closed connection has ended. *)
Lemma drop_then_unregister :
  ∃ s, run 1%positive drop_then_unregister_run started_room = Some (Done s)
    ∧ members (room s) = {[2%positive]}
    ∧ (1%positive ∉ members (room s)).
Proof.
  eexists. split; [vm_compute; reflexivity|].
  split; [vm_compute; reflexivity|]. compute_done.
Qed.

(** ** Teardown *)

Lemma cleanup_client_turn (d : ClientId) (h : gmap ClientId Client) :
  (∃ c, h !! d = Some c ∧ chan_closed (send c) = false) ->
  ∃ h1, cleanup_client d h = Done h1
    ∧ h1 !! d = after_cleanup <$> h !! d
    ∧ ∀ e, e ≠ d -> h1 !! e = h !! e.
Proof.
  intros (c & Hc & Hopen). unfold cleanup_client, close_chan. rewrite Hc, Hopen. simpl.
  eexists. split; [reflexivity|]. split.
  - by rewrite lookup_insert_eq.
  - intros e He. by rewrite lookup_insert_ne.
Qed.

(** A second call of [cleanup] finds the flag set and does nothing. *)
Lemma cleanup_again (order : list ClientId) (s : State) :
  cleaned (room s) = true -> cleanup order s = Done s.
Proof. unfold cleanup. by intros ->. Qed.

(** The first call, when the queue of every client still in the set is
    open: each of these clients has its queue and its connection closed,
    the client map becomes the nil map and the flag is set. *)
Lemma cleanup_first (order : list ClientId) (s : State) :
  cleaned (room s) = false ->
  range_order (room s) order ->
  members_open s ->
  ∃ s', cleanup order s = Done s'
    ∧ clients (room s') = None
    ∧ cleaned (room s') = true
    ∧ ∀ d, heap s' !! d =
        if decide (d ∈ members (room s)) then after_cleanup <$> heap s !! d
        else heap s !! d.
Proof.
  intros Hflag Hord Hopen. unfold cleanup. rewrite Hflag.
  destruct (range_clients_Done cleanup_client (λ _, after_cleanup)
              (λ _ o, ∃ c, o = Some c ∧ chan_closed (send c) = false)
              cleanup_client_turn order (heap s)) as (h' & Hrun & Hlook).
  - by eapply range_order_NoDup.
  - intros d Hd. apply Hopen. by apply (range_order_elem_of _ _ _ Hord).
  - rewrite Hrun. simpl. eexists. split; [reflexivity|]. simpl.
    split; [done|]. split; [done|].
    intros d. rewrite Hlook.
    destruct (decide (d ∈ order)) as [Hin|Hnin].
    + rewrite decide_True; [done|]. by apply (range_order_elem_of _ _ _ Hord).
    + rewrite decide_False; [done|]. by rewrite <- (range_order_elem_of _ _ _ Hord).
Qed.

(** C4: in a room one of whose clients has closed itself already, the
    first call of [cleanup] panics with a close of a closed channel on
    that client's queue, in either order of the iteration, so the
    teardown does not get to clear the client set. A room gets there
    from its start: its only client leaves, a second client is admitted
    before the loop sees the cancellation, and the read loop of that
    client ends before the teardown begins. *)
Theorem cleanup_stale_client_panics :
  cleaned (room stale_state) = false
  ∧ heap stale_state !! 1%positive = Some closed_client
  ∧ cleanup [1; 2]%positive stale_state = Panicked CloseOfClosedChannel
  ∧ cleanup [2; 1]%positive stale_state = Panicked CloseOfClosedChannel
  ∧ run 1%positive (late_admission_run ++ [LoopDone [2%positive]]) started_room
    = Some (Panicked CloseOfClosedChannel).
Proof. repeat split. Qed.

(** Teardown runs at most once. The first call of [cleanup], made
    while the queue of every client still in the set is open, closes
    the queue and the connection of each of these clients, leaves the
    client set empty (the nil map) and sets the flag; any call made
    with the flag set, hence any call after the first, returns the
    state unchanged. *)
Lemma cleanup_at_most_once (order order' : list ClientId) (s : State) :
  (cleaned (room s) = false ->
   range_order (room s) order ->
   members_open s ->
   ∃ s', cleanup order s = Done s'
     ∧ clients (room s') = None
     ∧ ClientCount s' = 0
     ∧ cleaned (room s') = true
     ∧ (∀ d c, d ∈ members (room s) -> heap s !! d = Some c ->
          ∃ c', heap s' !! d = Some c'
            ∧ chan_closed (send c') = true
            ∧ conn_closed (Conn_ c') = true)
     ∧ cleanup order' s' = Done s')
  ∧ (cleaned (room s) = true -> cleanup order' s = Done s).
Proof.
  split; [|apply cleanup_again].
  intros Hflag Hord Hopen.
  destruct (cleanup_first order s Hflag Hord Hopen) as (s' & Hrun & Hnil & Hset & Hlook).
  exists s'. split; [done|]. split; [done|]. split.
  { unfold ClientCount, members. rewrite Hnil. reflexivity. }
  split; [done|]. split; [|by apply cleanup_again].
  intros d c Hd Hc. exists (after_cleanup c).
  rewrite Hlook, decide_True, Hc by done. done.
Qed.

Lemma saturated_state_members_open : members_open saturated_state.
Proof.
  intros d Hd. unfold members in Hd; simpl in Hd. set_unfold in Hd.
  destruct Hd as [[-> | ->] | ->].
  - exists (open_client []). split; reflexivity.
  - exists (open_client full_queue). split; reflexivity.
  - exists (open_client []). split; reflexivity.
Defined.

Lemma cleanup_at_most_once_instance :
  (∃ s', cleanup [1; 2; 3]%positive saturated_state = Done s'
     ∧ clients (room s') = None
     ∧ ClientCount s' = 0
     ∧ cleaned (room s') = true)
  ∧ cleanup [3; 2; 1]%positive torn_down_state = Done torn_down_state.
Proof.
  split.
  - destruct (proj1 (cleanup_at_most_once [1; 2; 3]%positive [] saturated_state))
      as (s' & Hrun & Hnil & Hcount & Hflag & _).
    + reflexivity.
    + exact saturated_state_order.
    + exact saturated_state_members_open.
    + exists s'. repeat (split; [assumption|]). assumption.
  - apply (proj2 (cleanup_at_most_once [] [3; 2; 1]%positive torn_down_state)).
    vm_compute. reflexivity.
Defined.

(** ** Admission *)

Lemma registerClient_nil_map (c : ClientId) (s : State) :
  clients (room s) = None -> registerClient c s = Panicked AssignToNilMap.
Proof. unfold registerClient. by intros ->. Qed.

Lemma registerClient_panics_iff (c : ClientId) (s : State) :
  panics (registerClient c s) ↔ clients (room s) = None.
Proof.
  unfold registerClient. destruct (clients (room s)); simpl; split; try done.
Qed.

Lemma cleanup_Done_nil (order : list ClientId) (s s' : State) :
  cleaned (room s) = false -> cleanup order s = Done s' ->
  clients (room s') = None ∧ cleaned (room s') = true.
Proof.
  unfold cleanup. intros -> Hrun.
  destruct (range_clients cleanup_client order (heap s)); [|discriminate].
  inversion Hrun. done.
Qed.

(** C10: [cleanup] leaves the nil map as the client map, and
    [registerClient] on a room whose client map is nil panics with an
    assignment to an entry in a nil map, whatever the client;
    [registerClient] panics in no other case. *)
Theorem registerClient_after_cleanup
    (order : list ClientId) (c : ClientId) (s s' : State) :
  (cleaned (room s) = false ->
   cleanup order s = Done s' ->
   clients (room s') = None
   ∧ registerClient c s' = Panicked AssignToNilMap)
  ∧ (panics (registerClient c s) ↔ clients (room s) = None).
Proof.
  split; [|apply registerClient_panics_iff].
  intros Hflag Hrun.
  destruct (cleanup_Done_nil _ _ _ Hflag Hrun) as [Hnil _].
  split; [done|]. by apply registerClient_nil_map.
Qed.

Lemma registerClient_after_cleanup_witness :
  clients (room torn_down_state) = None
  ∧ registerClient 4%positive torn_down_state = Panicked AssignToNilMap.
Proof.
  apply (proj1 (registerClient_after_cleanup [1; 2; 3]%positive 4%positive
                  saturated_state torn_down_state)).
  - reflexivity.
  - vm_compute. reflexivity.
Defined.

(** ** The broadcast as moves of the loop *)

(** The function [sendMessage] is the run of the loop's moves through
    a broadcast when no other goroutine moves in between: it ends in
    the same state, back in the select of [Run], or in the same panic. *)
Lemma broadcast_moves_sendMessage (rid : RoomId) (msg : Message) (order : list ClientId) :
  ∀ s, ∃ acts,
    Forall broadcast_move acts
    ∧ run rid acts (set_loop (Sending msg order) s) =
        Some (match sendMessage order msg s with
              | Done s' => Done (set_loop Selecting s')
              | Panicked why => Panicked why
              end).
Proof.
  unfold broadcast_move.
  induction order as [|c todo IH]; intros s.
  - exists [LoopVisit]. split; [repeat constructor; by left|]. reflexivity.
  - unfold sendMessage. simpl range_clients. unfold sendTo.
    destruct (decide (Some c = From_ msg)) as [Heq|Hne].
    + destruct (IH s) as (acts & Hacts & Hrun).
      exists (LoopVisit :: acts). split; [constructor; [by left|done]|].
      simpl. rewrite decide_True by done. exact Hrun.
    + destruct (heap s !! c) as [cl|] eqn:Hc.
      * destruct (try_send msg (send cl)) as [ch| |] eqn:Hsend.
        -- destruct (IH (set_heap
                      (<[c := {| Conn_ := Conn_ cl; Room_ := Room_ cl; send := ch |}]> (heap s)) s))
             as (acts & Hacts & Hrun).
           exists (LoopVisit :: acts). split; [constructor; [by left|done]|].
           simpl. rewrite decide_False, Hc, Hsend by done. exact Hrun.
        -- rewrite (close_client_Done _ _ _ Hc).
           destruct (IH (set_heap (<[c := after_close cl]> (heap s)) s))
             as (acts & Hacts & Hrun).
           exists (LoopVisit :: LoopDrop :: acts).
           split; [constructor; [by left|constructor; [by right|done]]|].
           simpl. rewrite decide_False, Hc, Hsend by done.
           simpl. rewrite (close_client_Done _ _ _ Hc). exact Hrun.
        -- exists [LoopVisit]. split; [repeat constructor; by left|].
           simpl. by rewrite decide_False, Hc, Hsend.
      * exists [LoopVisit]. split; [repeat constructor; by left|].
        simpl. by rewrite decide_False, Hc.
Qed.

(** ** Closed queues in the client set *)

(** A loop over clients visited once each, whose turns touch only the
    client they visit and panic with [why] on a [bad] client: it panics
    with [why] as soon as one of the clients is [bad], provided every
    turn before can be made at all ([ok]). *)
Lemma range_clients_panics
    (body : ClientId -> gmap ClientId Client -> outcome (gmap ClientId Client))
    (why : panic)
    (ok bad : ClientId -> option Client -> Prop) :
  (∀ e h, ok e (h !! e) ->
     body e h = Panicked why
     ∨ ∃ h1, body e h = Done h1 ∧ ¬ bad e (h !! e) ∧ ∀ x, x ≠ e -> h1 !! x = h !! x) ->
  ∀ (order : list ClientId) (h : gmap ClientId Client) (d : ClientId),
    NoDup order ->
    (∀ e, e ∈ order -> ok e (h !! e)) ->
    d ∈ order ->
    bad d (h !! d) ->
    range_clients body order h = Panicked why.
Proof.
  intros Hbody. induction order as [|a rest IH]; intros h d Hnd Hok Hd Hbad.
  - by apply elem_of_nil in Hd.
  - apply NoDup_cons in Hnd as [Ha Hnd]. simpl.
    destruct (Hbody a h) as [Hp | (h1 & Hrun & Hgood & Hother)]; [apply Hok; by left| |].
    + by rewrite Hp.
    + rewrite Hrun. simpl.
      assert (d ≠ a) as Hda by (intros ->; by apply Hgood).
      apply (IH h1 d); [done| | |].
      * intros e He. rewrite Hother; [|by intros ->]. apply Hok. by right.
      * apply elem_of_cons in Hd as [?|?]; done.
      * by rewrite Hother.
Qed.

Lemma sendTo_turn_or_panic (msg : Message) (e : ClientId) (h : gmap ClientId Client) :
  (Some e ≠ From_ msg -> is_Some (h !! e)) ->
  sendTo msg e h = Panicked SendOnClosedChannel
  ∨ ∃ h1, sendTo msg e h = Done h1
      ∧ ¬ (Some e ≠ From_ msg ∧ ∃ c, h !! e = Some c ∧ chan_closed (send c) = true)
      ∧ ∀ x, x ≠ e -> h1 !! x = h !! x.
Proof.
  intros Hok. destruct (decide (Some e = From_ msg)) as [Heq|Hne].
  - right. exists h. split; [|split].
    + unfold sendTo. by rewrite decide_True.
    + by intros [? _].
    + done.
  - destruct (Hok Hne) as [c Hc].
    destruct (chan_closed (send c)) eqn:Hclosed.
    + left. unfold sendTo. rewrite decide_False, Hc by done.
      by rewrite try_send_closed.
    + right. exists (<[e := after_sendTo msg e c]> h). split; [|split].
      * apply sendTo_Done; [done|]. by intros _.
      * intros [_ (c' & Hc' & Hcl')]. congruence.
      * intros x Hx. by rewrite lookup_insert_ne.
Qed.

Lemma cleanup_client_turn_or_panic (e : ClientId) (h : gmap ClientId Client) :
  is_Some (h !! e) ->
  cleanup_client e h = Panicked CloseOfClosedChannel
  ∨ ∃ h1, cleanup_client e h = Done h1
      ∧ ¬ (∃ c, h !! e = Some c ∧ chan_closed (send c) = true)
      ∧ ∀ x, x ≠ e -> h1 !! x = h !! x.
Proof.
  intros [c Hc]. unfold cleanup_client, close_chan. rewrite Hc.
  destruct (chan_closed (send c)) eqn:Hclosed; simpl; [by left|right].
  eexists. split; [reflexivity|]. split.
  - intros (c' & Hc' & Hcl'). congruence.
  - intros x Hx. by rewrite lookup_insert_ne.
Qed.

(** A broadcast that reaches a client whose queue is closed panics. *)
Lemma sendMessage_closed_queue
    (order : list ClientId) (msg : Message) (s : State) (d : ClientId) (c : Client) :
  range_order (room s) order ->
  (∀ e, e ∈ members (room s) -> is_Some (heap s !! e)) ->
  d ∈ members (room s) ->
  heap s !! d = Some c ->
  chan_closed (send c) = true ->
  Some d ≠ From_ msg ->
  sendMessage order msg s = Panicked SendOnClosedChannel.
Proof.
  intros Hord Hvalid Hd Hc Hclosed Hne. unfold sendMessage.
  rewrite (range_clients_panics (sendTo msg) SendOnClosedChannel
             (λ e o, Some e ≠ From_ msg -> is_Some o)
             (λ e o, Some e ≠ From_ msg ∧ ∃ c, o = Some c ∧ chan_closed (send c) = true)
             (sendTo_turn_or_panic msg) order (heap s) d); [done| | | |].
  - by eapply range_order_NoDup.
  - intros e He _. apply Hvalid. by apply (range_order_elem_of _ _ _ Hord).
  - by apply (range_order_elem_of _ _ _ Hord).
  - split; [done|]. by exists c.
Qed.

(** A first teardown that reaches a client whose queue is closed panics. *)
Lemma cleanup_closed_queue
    (order : list ClientId) (s : State) (d : ClientId) (c : Client) :
  range_order (room s) order ->
  (∀ e, e ∈ members (room s) -> is_Some (heap s !! e)) ->
  d ∈ members (room s) ->
  heap s !! d = Some c ->
  chan_closed (send c) = true ->
  cleaned (room s) = false ->
  cleanup order s = Panicked CloseOfClosedChannel.
Proof.
  intros Hord Hvalid Hd Hc Hclosed Hflag. unfold cleanup. rewrite Hflag.
  rewrite (range_clients_panics cleanup_client CloseOfClosedChannel
             (λ _ o, is_Some o)
             (λ _ o, ∃ c, o = Some c ∧ chan_closed (send c) = true)
             cleanup_client_turn_or_panic order (heap s) d); [done| | | |].
  - by eapply range_order_NoDup.
  - intros e He. apply Hvalid. by apply (range_order_elem_of _ _ _ Hord).
  - by apply (range_order_elem_of _ _ _ Hord).
  - by exists c.
Qed.

Lemma range_order_elements (r : Room) : range_order r (elements (members r)).
Proof. unfold range_order. reflexivity. Qed.

Lemma run_reachable (rid : RoomId) (acts : list Action) :
  ∀ s s', reachable rid s -> run rid acts s = Some (Done s') -> reachable rid s'.
Proof.
  induction acts as [|a rest IH]; intros s s' Hs Hrun; simpl in Hrun.
  - by inversion Hrun; subst.
  - destruct (exec rid a s) as [[s1|why]|] eqn:Hexec.
    + apply (IH s1); [|done]. by eapply reachable_step.
    + by destruct rest.
    + by destruct rest.
Qed.

Lemma members_open_receivers_open (msg : Message) (s : State) :
  members_open s -> receivers_open msg s.
Proof. intros Hopen d Hd _. by apply Hopen. Qed.

Lemma sendMessage_safe (order : list ClientId) (msg : Message) (s : State) :
  range_order (room s) order -> members_open s -> ¬ panics (sendMessage order msg s).
Proof.
  intros Hord Hopen.
  destruct (sendMessage_Done order msg s Hord (members_open_receivers_open _ _ Hopen))
    as (s' & -> & _).
  simpl. tauto.
Qed.

Lemma cleanup_safe (order : list ClientId) (s : State) :
  range_order (room s) order -> members_open s -> ¬ panics (cleanup order s).
Proof.
  intros Hord Hopen. destruct (cleaned (room s)) eqn:Hflag.
  - rewrite cleanup_again by done. simpl. tauto.
  - destruct (cleanup_first order s Hflag Hord Hopen) as (s' & -> & _). simpl. tauto.
Qed.

(** C9: in a room whose client set holds a client with a closed queue,
    a broadcast of a message of another origin panics with a send on a
    closed channel, and a first teardown panics with a close of a closed
    channel, in every order of the iteration. So a room in which every
    broadcast is safe, or in which the teardown is safe, has no client
    with a closed queue in its set. Such rooms arise from the start of a
    room: by the drop policy itself, when the write loop of the slow
    client empties the queue between the failed send and the close; by
    a read loop that ends and closes its client before the loop has
    unregistered it; and for the teardown, by a client admitted after
    the cancellation. *)
Theorem closed_queue_in_client_set :
  (∀ order msg s d c,
     range_order (room s) order ->
     (∀ e, e ∈ members (room s) -> is_Some (heap s !! e)) ->
     d ∈ members (room s) ->
     heap s !! d = Some c ->
     chan_closed (send c) = true ->
     Some d ≠ From_ msg ->
     sendMessage order msg s = Panicked SendOnClosedChannel)
  ∧ (∀ order s d c,
       range_order (room s) order ->
       (∀ e, e ∈ members (room s) -> is_Some (heap s !! e)) ->
       d ∈ members (room s) ->
       heap s !! d = Some c ->
       chan_closed (send c) = true ->
       cleaned (room s) = false ->
       cleanup order s = Panicked CloseOfClosedChannel)
  ∧ (∀ s,
       (∀ e, e ∈ members (room s) -> is_Some (heap s !! e)) ->
       (∀ order msg, range_order (room s) order -> ¬ panics (sendMessage order msg s)) ->
       members_open s)
  ∧ (∀ s,
       (∀ e, e ∈ members (room s) -> is_Some (heap s !! e)) ->
       cleaned (room s) = false ->
       (∀ order, range_order (room s) order -> ¬ panics (cleanup order s)) ->
       members_open s)
  ∧ (∃ s, run 1%positive drop_run started_room = Some (Done s)
       ∧ reachable 1%positive s
       ∧ 1%positive ∈ members (room s)
       ∧ heap s !! 1%positive = Some closed_client
       ∧ exec 1%positive LoopVisit s = Some (Panicked SendOnClosedChannel))
  ∧ (∃ s, run 1%positive exit_run started_room = Some (Done s)
       ∧ reachable 1%positive s
       ∧ 1%positive ∈ members (room s)
       ∧ heap s !! 1%positive = Some closed_client
       ∧ exec 1%positive LoopVisit s = Some (Panicked SendOnClosedChannel))
  ∧ (∃ s, run 1%positive late_admission_run started_room = Some (Done s)
       ∧ reachable 1%positive s
       ∧ 2%positive ∈ members (room s)
       ∧ heap s !! 2%positive = Some closed_client
       ∧ exec 1%positive (LoopDone [2%positive]) s = Some (Panicked CloseOfClosedChannel)).
Proof.
  split; [exact sendMessage_closed_queue|].
  split; [exact cleanup_closed_queue|].
  split; [|split].
  - intros s Hvalid Hsafe d Hd.
    destruct (Hvalid d Hd) as [c Hc]. exists c. split; [done|].
    destruct (chan_closed (send c)) eqn:Hclosed; [|done].
    exfalso. apply (Hsafe (elements (members (room s))) seek_message).
    + apply range_order_elements.
    + rewrite (sendMessage_closed_queue _ seek_message s d c); simpl;
        auto using range_order_elements.
  - intros s Hvalid Hflag Hsafe d Hd.
    destruct (Hvalid d Hd) as [c Hc]. exists c. split; [done|].
    destruct (chan_closed (send c)) eqn:Hclosed; [|done].
    exfalso. apply (Hsafe (elements (members (room s)))).
    + apply range_order_elements.
    + rewrite (cleanup_closed_queue _ s d c); simpl; auto using range_order_elements.
  - split; [|split].
    + eexists. split; [vm_compute; reflexivity|].
      split; [apply (run_reachable 1%positive drop_run started_room);
              [constructor|vm_compute; reflexivity]|].
      repeat split; vm_compute; reflexivity.
    + eexists. split; [vm_compute; reflexivity|].
      split; [apply (run_reachable 1%positive exit_run started_room);
              [constructor|vm_compute; reflexivity]|].
      repeat split; vm_compute; reflexivity.
    + eexists. split; [vm_compute; reflexivity|].
      split; [apply (run_reachable 1%positive late_admission_run started_room);
              [constructor|vm_compute; reflexivity]|].
      repeat split; vm_compute; reflexivity.
Qed.

Lemma stale_state_order : range_order (room stale_state) [2; 1]%positive.
Proof.
  unfold range_order.
  replace (elements (members (room stale_state))) with [2; 1]%positive
    by (vm_compute; reflexivity).
  reflexivity.
Defined.

Lemma stale_state_valid :
  ∀ e, e ∈ members (room stale_state) -> is_Some (heap stale_state !! e).
Proof.
  intros e He. unfold members in He; simpl in He. set_unfold in He.
  destruct He as [-> | ->]; eexists; reflexivity.
Defined.

Lemma saturated_state_valid :
  ∀ e, e ∈ members (room saturated_state) -> is_Some (heap saturated_state !! e).
Proof.
  intros e He. unfold members in He; simpl in He. set_unfold in He.
  destruct He as [[-> | ->] | ->]; eexists; reflexivity.
Defined.

Lemma slow_reader_state_valid :
  ∀ e, e ∈ members (room slow_reader_state) -> is_Some (heap slow_reader_state !! e).
Proof.
  intros e He. unfold members in He; simpl in He. set_unfold in He.
  subst e. eexists. reflexivity.
Defined.

Lemma slow_reader_state_members_open : members_open slow_reader_state.
Proof.
  intros d Hd. unfold members in Hd; simpl in Hd. set_unfold in Hd. subst d.
  exists (open_client full_queue). split; reflexivity.
Defined.

Lemma closed_queue_in_client_set_witness :
  sendMessage [2; 1]%positive from_second stale_state = Panicked SendOnClosedChannel
  ∧ cleanup [2; 1]%positive stale_state = Panicked CloseOfClosedChannel
  ∧ members_open saturated_state
  ∧ members_open slow_reader_state.
Proof.
  destruct closed_queue_in_client_set as (Hsend & Hclean & Hsafe & Hsafe' & _).
  split; [|split; [|split]].
  - apply (Hsend [2; 1]%positive from_second stale_state 1%positive closed_client).
    + exact stale_state_order.
    + exact stale_state_valid.
    + vm_compute. reflexivity.
    + reflexivity.
    + reflexivity.
    + discriminate.
  - apply (Hclean [2; 1]%positive stale_state 1%positive closed_client).
    + exact stale_state_order.
    + exact stale_state_valid.
    + vm_compute. reflexivity.
    + reflexivity.
    + reflexivity.
    + reflexivity.
  - apply (Hsafe saturated_state).
    + exact saturated_state_valid.
    + intros order msg Hord.
      apply sendMessage_safe; [exact Hord|exact saturated_state_members_open].
  - apply (Hsafe' slow_reader_state).
    + exact slow_reader_state_valid.
    + reflexivity.
    + intros order Hord.
      apply cleanup_safe; [exact Hord|exact slow_reader_state_members_open].
Defined.

(** ** The inbound loop *)

Lemma validCommand_accepted (t : CommandType) :
  validCommand t = true ↔ t ∈ accepted_commands.
Proof.
  unfold validCommand, accepted_commands.
  repeat case_decide; subst; split; intros H'; try done;
    repeat (apply elem_of_cons in H' as [H'|H']; [done|]);
    try (by apply elem_of_nil in H');
    set_solver.
Qed.

Lemma receiveHandler_accepts
    (c : ClientId) (cl : Client) (msg : Message) (now : GoTime) (rest : list ReadEvent) :
  validCommand (Type_ msg) = true ->
  receiveHandler c cl (ReadFrame msg now :: rest) =
    ((Room_ cl, stamp c now msg) :: (receiveHandler c cl rest).1,
     (receiveHandler c cl rest).2).
Proof.
  intros Hvalid. simpl. unfold receiveFrame. rewrite Hvalid.
  by destruct (receiveHandler c cl rest).
Qed.

Lemma receiveHandler_skips
    (c : ClientId) (cl : Client) (msg : Message) (now : GoTime) (rest : list ReadEvent) :
  validCommand (Type_ msg) = false ->
  receiveHandler c cl (ReadFrame msg now :: rest) = receiveHandler c cl rest.
Proof. intros Hvalid. simpl. unfold receiveFrame. by rewrite Hvalid. Qed.

(** C3, as stated, fails: a frame of kind "error" is not accepted; the
    loop skips it, submits nothing and goes on reading. *)
Lemma receiveHandler_skips_error_command :
  Type_ error_message = "error"
  ∧ receiveHandler 1%positive (open_client []) [ReadFrame error_message 7%Z] = ([], false)
  ∧ receiveHandler 1%positive (open_client [])
      [ReadFrame error_message 7%Z; ReadFrame seek_message 8%Z]
    = ([(1%positive, stamp 1%positive 8%Z seek_message)], false).
Proof. repeat split. Qed.

(** C3, amended: the inbound loop accepts exactly the kinds play,
    pause, seek, sync and change-video. A decoded frame of one of these
    kinds is given its origin and the time of receipt and is submitted
    to the room of the client, and the loop goes on with the next
    frame; a decoded frame of any other kind submits nothing, and the
    loop goes on with the next frame as well. *)
Theorem receiveHandler_command_kinds
    (c : ClientId) (cl : Client) (msg : Message) (now : GoTime) (rest : list ReadEvent) :
  (Type_ msg ∈ [CommandPlay; CommandPause; CommandSeek; CommandSync; CommandVideoChange] ->
   receiveHandler c cl (ReadFrame msg now :: rest) =
     ((Room_ cl, stamp c now msg) :: (receiveHandler c cl rest).1,
      (receiveHandler c cl rest).2)
   ∧ From_ (stamp c now msg) = Some c
   ∧ Timestamp (stamp c now msg) = now
   ∧ Type_ (stamp c now msg) = Type_ msg
   ∧ Time_ (stamp c now msg) = Time_ msg)
  ∧ (Type_ msg ∉ [CommandPlay; CommandPause; CommandSeek; CommandSync; CommandVideoChange] ->
     receiveHandler c cl (ReadFrame msg now :: rest) = receiveHandler c cl rest).
Proof.
  split.
  - intros Hin%validCommand_accepted. split; [by apply receiveHandler_accepts|done].
  - intros Hnin. apply receiveHandler_skips.
    destruct (validCommand (Type_ msg)) eqn:Hvalid; [|done].
    by apply validCommand_accepted in Hvalid.
Qed.

Lemma receiveHandler_command_kinds_witness :
  receiveHandler 1%positive (open_client [])
    [ReadFrame seek_message 8%Z; ReadFrame error_message 9%Z; ReadError]
  = ([(1%positive, stamp 1%positive 8%Z seek_message)], true).
Proof.
  destruct (receiveHandler_command_kinds 1%positive (open_client []) seek_message 8%Z
              [ReadFrame error_message 9%Z; ReadError]) as [Haccept _].
  destruct (receiveHandler_command_kinds 1%positive (open_client []) error_message 9%Z
              [ReadError]) as [_ Hskip].
  rewrite (proj1 (Haccept ltac:(compute_done))).
  rewrite (Hskip ltac:(compute_done)).
  reflexivity.
Defined.

(** C7: the message submitted for an accepted frame carries the time
    of receipt as its timestamp, and what the loop submits does not
    depend on the timestamp the frame came with. *)
Theorem receiveHandler_server_timestamp
    (c : ClientId) (cl : Client) (msg : Message) (now : GoTime) (rest : list ReadEvent) :
  (validCommand (Type_ msg) = true ->
   ∃ out outs returned,
     receiveHandler c cl (ReadFrame msg now :: rest) = ((Room_ cl, out) :: outs, returned)
     ∧ Timestamp out = now)
  ∧ (∀ t1 t2,
       receiveFrame c (with_Timestamp t1 msg) now = receiveFrame c (with_Timestamp t2 msg) now
       ∧ receiveHandler c cl (ReadFrame (with_Timestamp t1 msg) now :: rest)
         = receiveHandler c cl (ReadFrame (with_Timestamp t2 msg) now :: rest)).
Proof.
  split.
  - intros Hvalid. rewrite receiveHandler_accepts by done.
    by eexists _, _, _.
  - intros t1 t2.
    assert (receiveFrame c (with_Timestamp t1 msg) now
            = receiveFrame c (with_Timestamp t2 msg) now) as Heq by reflexivity.
    split; [done|]. simpl. by rewrite Heq.
Qed.

Lemma receiveHandler_server_timestamp_witness :
  ∃ out outs returned,
    receiveHandler 1%positive (open_client [])
      [ReadFrame (with_Timestamp 123%Z seek_message) 8%Z] = ((1%positive, out) :: outs, returned)
    ∧ Timestamp out = 8%Z.
Proof.
  apply (proj1 (receiveHandler_server_timestamp 1%positive (open_client [])
                  (with_Timestamp 123%Z seek_message) 8%Z [])).
  reflexivity.
Defined.

(** ** The wire form *)

Section WireProperties.
Variable encodeString : string -> string.
Variable encodeFloat : float64 -> option string.
Variable encodeTime : GoTime -> option string.
Variable isEmptyValue : float64 -> bool.

Lemma wireFields_with_From (o : option ClientId) (m : Message) :
  wireFields isEmptyValue (with_From o m) = wireFields isEmptyValue m.
Proof. reflexivity. Qed.

Lemma Marshal_with_From (o : option ClientId) (m : Message) :
  Marshal encodeString encodeFloat encodeTime isEmptyValue (with_From o m)
  = Marshal encodeString encodeFloat encodeTime isEmptyValue m.
Proof. reflexivity. Qed.

Lemma sendHandler_relabel (origin : Message -> option ClientId) (evs : list SendEvent) :
  sendHandler encodeString encodeFloat encodeTime isEmptyValue (map (relabel origin) evs)
  = sendHandler encodeString encodeFloat encodeTime isEmptyValue evs.
Proof.
  induction evs as [|ev rest IH]; [done|].
  destruct ev as [m written| |written]; simpl.
  - rewrite Marshal_with_From, IH. done.
  - done.
  - by rewrite IH.
Qed.

(** C8: the origin of a message is not serialized. The bytes that
    [json.Marshal] produces for a message, and so the frames the write
    loop puts on the connection, are the same whatever the origin of
    the message; the wire form has the keys type and timestamp, and
    between them the key time when the playback time is not empty, and
    no other key. *)
Theorem Marshal_omits_origin (m : Message) (o : option ClientId) :
  Marshal encodeString encodeFloat encodeTime isEmptyValue (with_From o m)
  = Marshal encodeString encodeFloat encodeTime isEmptyValue m
  ∧ (∀ origin evs,
       sendHandler encodeString encodeFloat encodeTime isEmptyValue (map (relabel origin) evs)
       = sendHandler encodeString encodeFloat encodeTime isEmptyValue evs)
  ∧ wireFields isEmptyValue m =
      ([("type", JString (Type_ m))]
       ++ (if isEmptyValue (Time_ m) then [] else [("time", JNumber (Time_ m))])
       ++ [("timestamp", JTime (Timestamp m))])%list
  ∧ map fst (wireFields isEmptyValue m) =
      if isEmptyValue (Time_ m) then ["type"; "timestamp"]
      else ["type"; "time"; "timestamp"].
Proof.
  split; [apply Marshal_with_From|].
  split; [apply sendHandler_relabel|].
  split; [reflexivity|].
  unfold wireFields. by destruct (isEmptyValue (Time_ m)).
Qed.

End WireProperties.

(** ** The hub *)

Lemma getRoom_empty_key (h : Hub) : getRoom EmptyString h = (None, h).
Proof. reflexivity. Qed.

Lemma getRoom_present (key : string) (h : Hub) (r : RoomId) :
  key ≠ EmptyString -> Rooms h !! key = Some r -> getRoom key h = (Some r, h).
Proof. intros Hkey Hr. unfold getRoom. by rewrite decide_False, Hr. Qed.

Lemma getRoom_absent (key : string) (h : Hub) :
  key ≠ EmptyString -> Rooms h !! key = None ->
  getRoom key h =
    (Some (fresh (dom (rooms h))),
     {| Rooms := <[key := fresh (dom (rooms h))]> (Rooms h);
        rooms := <[fresh (dom (rooms h)) := NewRoom]> (rooms h);
        running := {[fresh (dom (rooms h))]} ∪ running h;
        watchers := (fresh (dom (rooms h)), key) :: watchers h |}).
Proof.
  intros Hkey Hr. unfold getRoom, getRoom_locked. by rewrite decide_False, Hr.
Qed.

(** C5: [getRoom] returns no room for the empty key and leaves the hub
    as it was. For a key that is not empty and is in the directory it
    returns the room of the key and leaves the hub as it was. For a key
    that is not empty and not in the directory it makes one new room
    object, a room as [NewRoom] builds it, maps the key to it and leaves
    the other keys alone, starts the loop of the new room, registers the
    watcher of the new room, and returns the new room. *)
Theorem getRoom_resolves (key : string) (h : Hub) :
  getRoom EmptyString h = (None, h)
  ∧ (∀ r, key ≠ EmptyString -> Rooms h !! key = Some r -> getRoom key h = (Some r, h))
  ∧ (key ≠ EmptyString -> Rooms h !! key = None ->
     ∃ r h', getRoom key h = (Some r, h')
       ∧ (r ∉ dom (rooms h))
       ∧ rooms h' = <[r := NewRoom]> (rooms h)
       ∧ dom (rooms h') = {[r]} ∪ dom (rooms h)
       ∧ size (rooms h') = S (size (rooms h))
       ∧ Rooms h' = <[key := r]> (Rooms h)
       ∧ Rooms h' !! key = Some r
       ∧ (∀ k, k ≠ key -> Rooms h' !! k = Rooms h !! k)
       ∧ running h' = {[r]} ∪ running h
       ∧ watchers h' = (r, key) :: watchers h
       ∧ ((∀ k r', Rooms h !! k = Some r' -> r' ∈ dom (rooms h)) ->
          ∀ k, Rooms h !! k ≠ Some r)).
Proof.
  split; [apply getRoom_empty_key|]. split; [intros r; apply getRoom_present|].
  intros Hkey Habsent.
  pose proof (is_fresh (dom (rooms h))) as Hfresh.
  eexists _, _. split; [by apply getRoom_absent|]. simpl.
  split; [done|]. split; [done|]. split; [apply dom_insert_L|].
  split; [apply map_size_insert_None; by apply not_elem_of_dom|].
  split; [done|]. split; [apply lookup_insert_eq|].
  split; [intros k Hk; by apply lookup_insert_ne|].
  split; [done|]. split; [done|].
  intros Hwf k Hk. apply Hfresh. by eapply Hwf.
Qed.

Lemma getRoom_resolves_witness :
  getRoom "abc" one_room_hub = (Some 1%positive, one_room_hub)
  ∧ ∃ r h', getRoom "xyz" one_room_hub = (Some r, h')
      ∧ (r ∉ dom (rooms one_room_hub))
      ∧ Rooms h' !! "xyz" = Some r
      ∧ Rooms h' !! "abc" = Some 1%positive
      ∧ size (rooms h') = 2.
Proof.
  split.
  - apply (proj1 (proj2 (getRoom_resolves "abc" one_room_hub)) 1%positive).
    + discriminate.
    + reflexivity.
  - destruct (proj2 (proj2 (getRoom_resolves "xyz" one_room_hub)))
      as (r & h' & Hrun & Hnew & _ & _ & Hsize & _ & Hkey & Hother & _).
    + discriminate.
    + reflexivity.
    + exists r, h'. repeat (split; [assumption|]). split.
      * rewrite Hother by discriminate. reflexivity.
      * rewrite Hsize. reflexivity.
Defined.

(** ** The room after its teardown *)

Lemma exec_torn_down_consistent (rid : RoomId) (a : Action) (s s' : State) :
  exec rid a s = Some (Done s') -> torn_down_consistent s -> torn_down_consistent s'.
Proof.
  unfold torn_down_consistent. intros Hexec [Hnil Hret].
  destruct a; simpl in Hexec;
    unfold registerClient, unregisterClient, cleanup, close_client, obind in Hexec;
    repeat case_match; simplify_eq; simpl in *;
    try (split; [exact Hnil|exact Hret]);
    try (split; [exact Hnil|]; rewrite Hret; split; congruence).
  all: split; split; intros; try congruence; intuition congruence.
Qed.

Lemma reachable_torn_down_consistent (rid : RoomId) (s : State) :
  reachable rid s -> torn_down_consistent s.
Proof.
  induction 1 as [|s a s' _ IH Hexec].
  - unfold torn_down_consistent. simpl. split; split; discriminate.
  - by eapply exec_torn_down_consistent.
Qed.

(** Through the loop of [Run] no client is admitted after the
    teardown: the loop has returned. *)
Lemma no_admission_after_teardown (rid : RoomId) (s : State) :
  reachable rid s -> ¬ (∃ why, exec rid Connect s = Some (Panicked why)).
Proof.
  intros Hs [why Hexec].
  destruct (reachable_torn_down_consistent _ _ Hs) as [Hnil Hret].
  simpl in Hexec. destruct (loop s) eqn:Hloop; try discriminate.
  unfold registerClient in Hexec. simpl in Hexec.
  destruct (clients (room s)) eqn:Hclients; [discriminate|].
  assert (Selecting = Returned) by (apply Hret, Hnil; done). discriminate.
Qed.

(** * Further properties of the code *)

#[local] Set Warnings "-clear-no-such-hyp".

(** ** What the moves of a room keep *)

Lemma relayed_mono (s s' : State) (m : Message) :
  (∀ x, known s x -> known s' x) -> relayed s m -> relayed s' m.
Proof. intros Hmono [Hvalid (c & Hfrom & Hc)]. split; [done|]. exists c. auto. Qed.

Lemma client_sound_mono (rid : RoomId) (s s' : State) (c : ClientId) (cl : Client) :
  (∀ x, known s x -> known s' x) -> client_sound rid s c cl -> client_sound rid s' c cl.
Proof.
  intros Hmono (Hroom & Hcap & Hlen & Hconn & Hbuf).
  split; [done|]. split; [done|]. split; [done|]. split; [done|].
  intros m Hm. destruct (Hbuf m Hm) as [Hrel Hne].
  split; [by eapply relayed_mono|done].
Qed.

(** A state is sound when it differs from a sound one by components
    that are either taken over or sound by themselves. *)
Lemma sound_update (rid : RoomId) (s s' : State) :
  sound rid s ->
  (∀ x, known s x -> known s' x) ->
  (∀ c, c ∈ members (room s') -> c ∈ members (room s) ∨ known s' c) ->
  (∀ c, c ∈ unregister (room s') -> c ∈ unregister (room s) ∨ known s' c) ->
  (∀ c, c ∈ receiving s' -> c ∈ receiving s ∨ known s' c) ->
  (∀ c, c ∈ sending s' -> c ∈ sending s ∨ known s' c) ->
  (∀ c, c ∈ loop_clients (loop s') -> c ∈ loop_clients (loop s) ∨ known s' c) ->
  length (unregister (room s')) <= 10 ->
  length (message (room s')) <= 10 ->
  (∀ m, m ∈ message (room s') -> m ∈ message (room s) ∨ relayed s' m) ->
  (∀ m, loop_message (loop s') = Some m ->
        loop_message (loop s) = Some m ∨ m ∈ message (room s) ∨ relayed s' m) ->
  (∀ c cl, heap s' !! c = Some cl -> heap s !! c = Some cl ∨ client_sound rid s' c cl) ->
  sound rid s'.
Proof.
  intros (Hmem & Hunreg & Hrecv & Hsend & Hloop & Hlu & Hlm & Hmsg & Hcur & Hcl)
         Hmono Hmem' Hunreg' Hrecv' Hsend' Hloop' Hlu' Hlm' Hmsg' Hcur' Hcl'.
  unfold sound. split_and!; try done.
  - intros c Hc. destruct (Hmem' c Hc); auto.
  - intros c Hc. destruct (Hunreg' c Hc); auto.
  - intros c Hc. destruct (Hrecv' c Hc); auto.
  - intros c Hc. destruct (Hsend' c Hc); auto.
  - intros c Hc. destruct (Hloop' c Hc); auto.
  - intros m Hm. destruct (Hmsg' m Hm) as [?|?]; [|done].
    eapply relayed_mono; eauto.
  - intros m Hm. destruct (Hcur' m Hm) as [?|[?|?]]; [| |done];
      eapply relayed_mono; eauto.
  - intros c cl Hc. destruct (Hcl' c cl Hc) as [?|?]; [|done].
    eapply client_sound_mono; eauto.
Qed.

Lemma known_insert (s : State) (c : ClientId) (cl : Client) (x : ClientId) :
  known s x -> known (set_heap (<[c := cl]> (heap s)) s) x.
Proof. unfold known. simpl. rewrite lookup_insert_is_Some'. auto. Qed.

Lemma after_close_sound (rid : RoomId) (s : State) (c : ClientId) (cl : Client) :
  client_sound rid s c cl -> client_sound rid s c (after_close cl).
Proof.
  intros (Hroom & Hcap & Hlen & Hconn & Hbuf). unfold after_close.
  destruct (buf (send cl)) as [|m rest] eqn:Hb; unfold client_sound; simpl.
  - split_and!; try done; try lia.
  - split_and!; try done; try (simpl in Hlen; lia).
    intros m' Hm'. apply Hbuf. by right.
Qed.

Lemma after_cleanup_sound (rid : RoomId) (s : State) (c : ClientId) (cl : Client) :
  client_sound rid s c cl -> client_sound rid s c (after_cleanup cl).
Proof.
  intros (Hroom & Hcap & Hlen & Hconn & Hbuf). unfold client_sound. by split_and!.
Qed.

Lemma NewClient_sound (rid : RoomId) (s : State) (c : ClientId) :
  client_sound rid s c (NewClient rid).
Proof.
  unfold client_sound. split_and!; simpl; try done; try lia.
  intros m Hm. by apply elem_of_nil in Hm.
Qed.

Lemma close_client_inv (d : ClientId) (h h' : gmap ClientId Client) :
  close_client d h = Done h' ->
  ∃ cl, h !! d = Some cl ∧ h' = <[d := after_close cl]> h.
Proof.
  unfold close_client. destruct (h !! d) as [cl|]; [|discriminate].
  rewrite Client_close_Done. simpl. intros [= <-]. by exists cl.
Qed.

(** The teardown loop leaves each client as it was or as its turn
    leaves it. *)
Lemma range_cleanup_inv (order : list ClientId) :
  ∀ h h' : gmap ClientId Client,
    range_clients cleanup_client order h = Done h' ->
    ∀ d cl', h' !! d = Some cl' ->
      ∃ cl, h !! d = Some cl ∧ (cl' = cl ∨ cl' = after_cleanup cl).
Proof.
  induction order as [|a rest IH]; intros h h' Hrun d cl' Hd; simpl in Hrun.
  - inversion Hrun; subst. eauto.
  - unfold cleanup_client in Hrun at 1.
    destruct (h !! a) as [ca|] eqn:Ha; [|discriminate].
    unfold close_chan in Hrun.
    destruct (chan_closed (send ca)) eqn:Hclosed; [discriminate|]. simpl in Hrun.
    destruct (IH _ _ Hrun d cl' Hd) as (cl1 & Hcl1 & Hor).
    destruct (decide (d = a)) as [->|Hne].
    + rewrite lookup_insert_eq in Hcl1. inversion Hcl1; subst cl1.
      exists ca. split; [done|]. right. by destruct Hor as [->| ->].
    + rewrite lookup_insert_ne in Hcl1 by done. eauto.
Qed.

Lemma range_cleanup_known (order : list ClientId) :
  ∀ h h' : gmap ClientId Client,
    range_clients cleanup_client order h = Done h' ->
    ∀ x, is_Some (h !! x) -> is_Some (h' !! x).
Proof.
  induction order as [|a rest IH]; intros h h' Hrun x Hx; simpl in Hrun.
  - by inversion Hrun; subst.
  - unfold cleanup_client in Hrun at 1.
    destruct (h !! a) as [ca|] eqn:Ha; [|discriminate].
    destruct (close_chan (send ca)) as [ch|]; [|discriminate]. simpl in Hrun.
    apply (IH _ _ Hrun). rewrite lookup_insert_is_Some'. auto.
Qed.

Lemma try_send_Sent_sound (rid : RoomId) (s : State) (c : ClientId) (cl : Client)
    (msg : Message) (ch : Chan) :
  client_sound rid s c cl ->
  relayed s msg ->
  Some c ≠ From_ msg ->
  try_send msg (send cl) = Sent ch ->
  client_sound rid s c {| Conn_ := Conn_ cl; Room_ := Room_ cl; send := ch |}.
Proof.
  intros (Hroom & Hcap & Hlen & Hconn & Hbuf) Hrel Hne. unfold try_send.
  destruct (chan_closed (send cl)); [discriminate|].
  case_decide as Hlt; [|discriminate]. intros [= <-].
  unfold client_sound; simpl. split_and!; try done.
  - rewrite length_app. simpl. lia.
  - intros m [Hm|Hm]%elem_of_app; [by apply Hbuf|].
    apply list_elem_of_singleton in Hm as ->. split; [done|]. congruence.
Qed.

Lemma try_recv_sound (rid : RoomId) (s : State) (c : ClientId) (cl : Client)
    (got : option Message) (ch : Chan) :
  client_sound rid s c cl ->
  try_recv (send cl) = Some (got, ch) ->
  client_sound rid s c {| Conn_ := Conn_ cl; Room_ := Room_ cl; send := ch |}.
Proof.
  intros (Hroom & Hcap & Hlen & Hconn & Hbuf). unfold try_recv.
  destruct (buf (send cl)) as [|m rest] eqn:Hb.
  - destruct (chan_closed (send cl)) eqn:Hclosed; [|discriminate]. intros [= <- <-].
    unfold client_sound. simpl. rewrite Hb.
    split_and!; try done; try (simpl; lia);
      try (intros m0 Hm0; by apply elem_of_nil in Hm0).
    intros _. by apply Hconn.
  - intros [= <- <-]. unfold client_sound; simpl. split_and!; try done.
    + simpl in Hlen. lia.
    + intros m' Hm'. apply Hbuf. by right.
Qed.

Ltac taken_over := simpl; intros; left; assumption.
Ltac heap_grows :=
  let x := fresh in let H := fresh in
  intros x H; unfold known; simpl; rewrite lookup_insert_is_Some'; right; exact H.
Ltac now_known := right; unfold known; simpl; by rewrite lookup_insert_eq.

(** Every move that completes keeps the state sound. *)
Lemma exec_sound (rid : RoomId) (a : Action) (s s' : State) :
  exec rid a s = Some (Done s') -> sound rid s -> sound rid s'.
Proof.
  intros Hexec Hsound.
  pose proof Hsound as (Hmem & Hunreg & Hrecv & Hsend & Hloop & Hlu & Hlm & Hmsg & Hcur & Hcl).
  destruct a as [|c ev|c|c| |order| | |order]; simpl in Hexec.
  - (* Connect *)
    destruct (loop s) eqn:Hl; try discriminate.
    unfold registerClient in Hexec. simpl in Hexec.
    destruct (clients (room s)) as [cs|] eqn:Hcs; [|discriminate].
    injection Hexec as <-.
    apply (sound_update rid s);
      [done|heap_grows| |taken_over| | |taken_over|done|done|taken_over|taken_over|].
    + intros x. unfold members; simpl. rewrite Hcs; simpl.
      intros [->%elem_of_singleton|Hx]%elem_of_union; [now_known|by left].
    + simpl. intros x [->%elem_of_singleton|Hx]%elem_of_union; [now_known|by left].
    + simpl. intros x [->%elem_of_singleton|Hx]%elem_of_union; [now_known|by left].
    + simpl. intros x cl. destruct (decide (x = fresh (dom (heap s)))) as [->|Hne].
      * rewrite lookup_insert_eq. intros [= <-]. right. apply NewClient_sound.
      * rewrite lookup_insert_ne by done. by left.
  - (* Receive *)
    case_decide as Hc; [|discriminate].
    destruct ev as [| |msg now].
    + case_decide as Hq; [|discriminate].
      destruct (close_client c (heap s)) as [h|] eqn:Hclose; [|discriminate].
      simpl in Hexec. injection Hexec as <-.
      apply close_client_inv in Hclose as (cl & Hcl0 & ->).
      apply (sound_update rid s);
        [done|heap_grows|taken_over| | |taken_over|taken_over| |done|taken_over|taken_over|].
      * simpl. intros x [Hx| ->%list_elem_of_singleton]%elem_of_app; [by left|now_known].
      * simpl. intros x [Hx _]%elem_of_difference. by left.
      * simpl. rewrite length_app. simpl. lia.
      * simpl. intros x cl'. destruct (decide (x = c)) as [->|Hne].
        -- rewrite lookup_insert_eq. intros [= <-]. right.
           apply after_close_sound. eapply client_sound_mono; [|by apply Hcl]. heap_grows.
        -- rewrite lookup_insert_ne by done. by left.
    + by injection Hexec as <-.
    + destruct (receiveFrame c msg now) as [out|] eqn:Hout.
      * case_decide as Hq; [|discriminate]. injection Hexec as <-.
        apply (sound_update rid s);
          [done|done|taken_over|taken_over|taken_over|taken_over|taken_over|done| |
           |taken_over|taken_over].
        -- simpl. rewrite length_app. simpl. lia.
        -- simpl. intros m [Hm| ->%list_elem_of_singleton]%elem_of_app; [by left|right].
           unfold receiveFrame in Hout.
           destruct (validCommand (Type_ msg)) eqn:Hvalid; [|discriminate].
           injection Hout as <-. split; [done|]. exists c. split; [done|].
           by apply Hrecv.
      * by injection Hexec as <-.
  - (* SendTurn *)
    case_decide as Hc; [|discriminate].
    destruct (heap s !! c) as [cl|] eqn:Hcl0; [|discriminate].
    destruct (try_recv (send cl)) as [[[m|] ch]|] eqn:Hrecv0; try discriminate.
    destruct (conn_closed (Conn_ cl)); [discriminate|]. injection Hexec as <-.
    apply (sound_update rid s);
      [done|heap_grows|taken_over|taken_over|taken_over|taken_over|taken_over|done|done|
       taken_over|taken_over|].
    simpl. intros x cl'. destruct (decide (x = c)) as [->|Hne].
    + rewrite lookup_insert_eq. intros [= <-]. right.
      eapply try_recv_sound; [|done]. eapply client_sound_mono; [|by apply Hcl]. heap_grows.
    + rewrite lookup_insert_ne by done. by left.
  - (* SendReturns *)
    case_decide as Hc; [|discriminate].
    destruct (close_client c (heap s)) as [h|] eqn:Hclose; [|discriminate].
    simpl in Hexec. injection Hexec as <-.
    apply close_client_inv in Hclose as (cl & Hcl0 & ->).
    apply (sound_update rid s);
      [done|heap_grows|taken_over|taken_over|taken_over| |taken_over|done|done|
       taken_over|taken_over|].
    + simpl. intros x [Hx _]%elem_of_difference. by left.
    + simpl. intros x cl'. destruct (decide (x = c)) as [->|Hne].
      * rewrite lookup_insert_eq. intros [= <-]. right.
        apply after_close_sound. eapply client_sound_mono; [|by apply Hcl]. heap_grows.
      * rewrite lookup_insert_ne by done. by left.
  - (* LoopUnregister *)
    destruct (loop s) eqn:Hl; try discriminate.
    destruct (unregister (room s)) as [|c rest] eqn:Hq; [discriminate|].
    injection Hexec as Hexec. unfold unregisterClient in Hexec. simpl in Hexec.
    assert (sound rid (set_unregister rest s)) as Hpop.
    { apply (sound_update rid s);
        [done|done|taken_over| |taken_over|taken_over|taken_over| |done|
         taken_over|taken_over|taken_over].
      - simpl. intros x Hx. left. rewrite Hq. by right.
      - simpl. simpl in Hlu. lia. }
    destruct (clients (room s)) as [cs|] eqn:Hcs; [|by injection Hexec as <-].
    case_decide as Hin; [|by injection Hexec as <-].
    destruct (close_client c (heap s)) as [h|] eqn:Hclose; [|discriminate].
    simpl in Hexec. injection Hexec as <-.
    apply close_client_inv in Hclose as (cl & Hcl0 & ->).
    apply (sound_update rid s);
      [done|heap_grows| | |taken_over|taken_over|taken_over| |done|
       taken_over|taken_over|].
    + intros x. unfold members; simpl. rewrite Hcs; simpl.
      intros [Hx _]%elem_of_difference. by left.
    + simpl. intros x Hx. left. rewrite Hq. by right.
    + simpl. simpl in Hlu. lia.
    + simpl. intros x cl'. destruct (decide (x = c)) as [->|Hne].
      * rewrite lookup_insert_eq. intros [= <-]. right.
        apply after_close_sound. eapply client_sound_mono; [|by apply Hcl]. heap_grows.
      * rewrite lookup_insert_ne by done. by left.
  - (* LoopMessage *)
    destruct (loop s) eqn:Hl; try discriminate.
    destruct (message (room s)) as [|msg rest] eqn:Hq; [discriminate|].
    case_decide as Hord; [|discriminate]. injection Hexec as <-.
    apply (sound_update rid s);
      [done|done|taken_over|taken_over|taken_over|taken_over| |done| | | |taken_over].
    + simpl. intros x Hx. right. apply Hmem. by apply (range_order_elem_of _ _ _ Hord).
    + simpl. simpl in Hlm. lia.
    + simpl. intros m Hm. left. rewrite Hq. by right.
    + simpl. intros m [= <-]. right. left. rewrite Hq. by left.
  - (* LoopVisit *)
    destruct (loop s) as [|msg [|c todo]| |] eqn:Hl; try discriminate.
    + injection Hexec as <-.
      apply (sound_update rid s);
        [done|done|taken_over|taken_over|taken_over|taken_over| |done|done|taken_over|
         |taken_over].
      * simpl. intros x Hx. by apply elem_of_nil in Hx.
      * simpl. intros m. discriminate.
    + case_decide as Horigin.
      * injection Hexec as <-.
        apply (sound_update rid s);
          [done|done|taken_over|taken_over|taken_over|taken_over| |done|done|taken_over|
           |taken_over].
        -- simpl. intros x Hx. left. rewrite Hl. simpl. by right.
        -- simpl. intros m [= <-]. left. by rewrite Hl.
      * destruct (heap s !! c) as [cl|] eqn:Hcl0; [|discriminate].
        destruct (try_send msg (send cl)) as [ch| |] eqn:Hsend0; [| |discriminate].
        -- injection Hexec as <-.
           apply (sound_update rid s);
             [done|heap_grows|taken_over|taken_over|taken_over|taken_over| |done|done|
              taken_over| |].
           ++ simpl. intros x Hx. left. rewrite Hl. simpl. by right.
           ++ simpl. intros m [= <-]. left. by rewrite Hl.
           ++ simpl. intros x cl'. destruct (decide (x = c)) as [->|Hne].
              ** rewrite lookup_insert_eq. intros [= <-]. right.
                 eapply try_send_Sent_sound; [| |done|done].
                 --- eapply client_sound_mono; [|by apply Hcl]. heap_grows.
                 --- eapply relayed_mono; [|by apply Hcur]. heap_grows.
              ** rewrite lookup_insert_ne by done. by left.
        -- injection Hexec as <-.
           apply (sound_update rid s);
             [done|done|taken_over|taken_over|taken_over|taken_over| |done|done|
              taken_over| |taken_over].
           ++ simpl. intros x Hx. left. by rewrite Hl.
           ++ simpl. intros m [= <-]. left. by rewrite Hl.
  - (* LoopDrop *)
    destruct (loop s) as [| |msg c todo|] eqn:Hl; try discriminate.
    destruct (close_client c (heap s)) as [h|] eqn:Hclose; [|discriminate].
    simpl in Hexec. injection Hexec as <-.
    apply close_client_inv in Hclose as (cl & Hcl0 & ->).
    apply (sound_update rid s);
      [done|heap_grows|taken_over|taken_over|taken_over|taken_over| |done|done|
       taken_over| |].
    + simpl. intros x Hx. left. rewrite Hl. simpl. by right.
    + simpl. intros m [= <-]. left. by rewrite Hl.
    + simpl. intros x cl'. destruct (decide (x = c)) as [->|Hne].
      * rewrite lookup_insert_eq. intros [= <-]. right.
        apply after_close_sound. eapply client_sound_mono; [|by apply Hcl]. heap_grows.
      * rewrite lookup_insert_ne by done. by left.
  - (* LoopDone *)
    destruct (loop s) eqn:Hl; try discriminate.
    destruct (cancelled (room s)); [|discriminate].
    case_decide as Hord; [|discriminate].
    unfold cleanup in Hexec.
    destruct (cleaned (room s)) eqn:Hflag.
    + simpl in Hexec. injection Hexec as <-.
      apply (sound_update rid s);
        [done|done|taken_over|taken_over|taken_over|taken_over| |done|done|taken_over|
         |taken_over].
      * simpl. intros x Hx. by apply elem_of_nil in Hx.
      * simpl. intros m. discriminate.
    + destruct (range_clients cleanup_client order (heap s)) as [h|] eqn:Hrun; [|discriminate].
      simpl in Hexec. injection Hexec as <-.
      assert (∀ y, known s y -> is_Some (h !! y)) as Hmono.
      { intros y Hy. by eapply range_cleanup_known. }
      apply (sound_update rid s);
        [done|exact Hmono| |taken_over|taken_over|taken_over| |done|done|taken_over| |].
      * intros x. unfold members. simpl. intros Hx. by apply elem_of_empty in Hx.
      * simpl. intros x Hx. by apply elem_of_nil in Hx.
      * simpl. intros m. discriminate.
      * simpl. intros x cl' Hx.
        destruct (range_cleanup_inv _ _ _ Hrun x cl' Hx) as (cl & Hcl0 & [->| ->]);
          [by left|right].
        apply after_cleanup_sound. eapply client_sound_mono; [|by apply Hcl]. exact Hmono.
Qed.

Lemma started_room_sound (rid : RoomId) : sound rid started_room.
Proof.
  unfold sound, known; simpl. split_and!; try done; try lia.
  all: try (intros x Hx; by apply elem_of_nil in Hx).
  all: try (intros x Hx; by apply elem_of_empty in Hx).
Qed.

Lemma reachable_sound (rid : RoomId) (s : State) : reachable rid s -> sound rid s.
Proof.
  induction 1 as [|s a s' _ IH Hexec]; [apply started_room_sound|].
  by eapply exec_sound.
Qed.

Lemma run_state_reachable (rid : RoomId) (acts : list Action) :
  reachable rid (run_state rid acts).
Proof.
  unfold run_state.
  destruct (run rid acts started_room) as [[s|why]|] eqn:Hrun; try apply reachable_start.
  eapply run_reachable; [apply reachable_start|done].
Qed.




(** X2: in every state a room gets to, the queues stay within their
    capacity: no client's outbound queue holds more than its ten
    messages, and the room's queues of broadcast and unregister requests
    hold at most ten entries each. *)
Theorem queues_within_capacity (rid : RoomId) (s : State) :
  reachable rid s ->
  length (unregister (room s)) <= 10
  ∧ length (message (room s)) <= 10
  ∧ ∀ c cl, heap s !! c = Some cl ->
      cap (send cl) = 10 ∧ length (buf (send cl)) <= cap (send cl).
Proof.
  intros Hreach.
  destruct (reachable_sound _ _ Hreach) as (_ & _ & _ & _ & _ & Hlu & Hlm & _ & _ & Hcl).
  split; [done|]. split; [done|].
  intros c cl Hc. destruct (Hcl c cl Hc) as (_ & Hcap & Hlen & _). rewrite Hcap. done.
Qed.

Lemma queues_within_capacity_witness :
  length (unregister (room (run_state 1%positive drop_run))) <= 10
  ∧ length (message (room (run_state 1%positive drop_run))) <= 10
  ∧ ∀ c cl, heap (run_state 1%positive drop_run) !! c = Some cl ->
      cap (send cl) = 10 ∧ length (buf (send cl)) <= cap (send cl).
Proof.
  apply (queues_within_capacity 1%positive). apply run_state_reachable.
Defined.

(** X3: in every state a room gets to, every message waiting in a
    client's outbound queue has a recognized command kind and the
    client of the room that sent it as its origin, and that origin is
    never the client in whose queue it waits: no client is ever queued
    its own message. *)
Theorem queued_messages_relayed (rid : RoomId) (s : State) (c : ClientId) (cl : Client)
    (m : Message) :
  reachable rid s ->
  heap s !! c = Some cl ->
  m ∈ buf (send cl) ->
  validCommand (Type_ m) = true
  ∧ (∃ o, From_ m = Some o ∧ o ≠ c ∧ is_Some (heap s !! o)).
Proof.
  intros Hreach Hc Hm.
  destruct (reachable_sound _ _ Hreach) as (_ & _ & _ & _ & _ & _ & _ & _ & _ & Hcl).
  destruct (Hcl c cl Hc) as (_ & _ & _ & _ & Hbuf).
  destruct (Hbuf m Hm) as [[Hvalid (o & Ho & Hknown)] Hne].
  split; [done|]. exists o. split; [done|]. split; [congruence|done].
Qed.

Lemma queued_messages_relayed_witness :
  validCommand (Type_ (stamp 2%positive 7%Z seek_message)) = true
  ∧ (∃ o, From_ (stamp 2%positive 7%Z seek_message) = Some o ∧ o ≠ 1%positive
       ∧ is_Some (heap (run_state 1%positive ([Connect; Connect] ++ relayed_frame)) !! o)).
Proof.
  apply (queued_messages_relayed 1%positive
           (run_state 1%positive ([Connect; Connect] ++ relayed_frame)) 1%positive
           {| Conn_ := {| conn_closed := false |}; Room_ := 1%positive;
              send := {| buf := [stamp 2%positive 7%Z seek_message]; cap := 10;
                         chan_closed := false |} |}).
  - apply run_state_reachable.
  - vm_compute. reflexivity.
  - simpl. apply list_elem_of_singleton. reflexivity.
Defined.

(** X4: in every state a room gets to, every client object belongs to
    this room, and a client whose outbound queue is closed has its
    connection closed as well: [close()] and the teardown both close the
    connection whenever they close the queue. *)
Theorem closed_queue_closed_connection (rid : RoomId) (s : State) (c : ClientId) (cl : Client) :
  reachable rid s ->
  heap s !! c = Some cl ->
  Room_ cl = rid
  ∧ (chan_closed (send cl) = true -> conn_closed (Conn_ cl) = true).
Proof.
  intros Hreach Hc.
  destruct (reachable_sound _ _ Hreach) as (_ & _ & _ & _ & _ & _ & _ & _ & _ & Hcl).
  destruct (Hcl c cl Hc) as (Hroom & _ & _ & Hconn & _). done.
Qed.

Lemma closed_queue_closed_connection_witness :
  Room_ closed_client = 1%positive
  ∧ (chan_closed (send closed_client) = true -> conn_closed (Conn_ closed_client) = true).
Proof.
  apply (closed_queue_closed_connection 1%positive (run_state 1%positive drop_run)
           1%positive closed_client).
  - apply run_state_reachable.
  - vm_compute. reflexivity.
Defined.

(** X5: once the teardown has run, the goroutine of [Run] has
    returned: in every state a room gets to with the flag set, the
    client set is empty and no move of the loop can be made any more, so
    nothing is admitted, unregistered or broadcast after the teardown. *)
Theorem loop_ends_with_teardown (rid : RoomId) (a : Action) (s : State) :
  reachable rid s ->
  cleaned (room s) = true ->
  loop s = Returned
  ∧ ClientCount s = 0
  ∧ (loop_move a -> exec rid a s = None).
Proof.
  intros Hreach Hflag.
  destruct (reachable_torn_down_consistent _ _ Hreach) as [Hnil Hret].
  assert (loop s = Returned) as Hl by by apply Hret.
  split; [done|]. split.
  - unfold ClientCount, members. rewrite (proj1 Hnil Hflag). reflexivity.
  - intros Hmove. destruct a; simpl in *; try done; by rewrite Hl.
Qed.

Lemma loop_ends_with_teardown_witness :
  loop (run_state 1%positive [Connect; Receive 1%positive ReadError;
                              LoopUnregister; LoopDone []]) = Returned
  ∧ ClientCount (run_state 1%positive [Connect; Receive 1%positive ReadError;
                                       LoopUnregister; LoopDone []]) = 0
  ∧ (loop_move Connect ->
     exec 1%positive Connect
       (run_state 1%positive [Connect; Receive 1%positive ReadError;
                              LoopUnregister; LoopDone []]) = None).
Proof.
  apply (loop_ends_with_teardown 1%positive Connect).
  - apply run_state_reachable.
  - vm_compute. reflexivity.
Defined.

(** ** Closing, admitting and evicting clients *)

Lemma close_times_after_close (n : nat) (c : Client) :
  close_times (S n) c = close_times n (after_close c).
Proof. simpl. by rewrite Client_close_Done. Qed.

(** X6: [close()] never panics, however often it is called and
    whatever the state of the client: each call takes one pending
    message off the queue, and the call that finds the queue empty
    closes it. So after [n] calls the first [n] pending messages are
    gone, and the queue is closed exactly if it was closed before or
    held fewer than [n] messages; the connection is closed from the
    first call on. *)
Theorem close_times_drains (n : nat) (c : Client) :
  ∃ c', close_times n c = Done c'
    ∧ buf (send c') = drop n (buf (send c))
    ∧ (chan_closed (send c') = true
       ↔ chan_closed (send c) = true ∨ length (buf (send c)) < n)
    ∧ (0 < n -> conn_closed (Conn_ c') = true)
    ∧ Room_ c' = Room_ c
    ∧ cap (send c') = cap (send c).
Proof.
  revert c. induction n as [|n IH]; intros c.
  - exists c. simpl. split; [done|]. split; [done|].
    split; [split; [by left|intros [?|?]; [done|lia]]|].
    split; [lia|done].
  - destruct (IH (after_close c)) as (c' & Hrun & Hbuf & Hclosed & Hconn & Hroom & Hcap).
    exists c'. rewrite close_times_after_close. split; [done|].
    unfold after_close in Hbuf, Hclosed, Hroom, Hcap. simpl in *.
    destruct (buf (send c)) as [|m rest] eqn:Hb; simpl in *.
    + split_and!; try done.
      * by rewrite drop_nil in Hbuf.
      * split; [intros _; right; lia|]. intros _. apply Hclosed. by left.
      * intros _. destruct n; [by inversion Hrun|]. apply Hconn. lia.
    + split_and!; try done.
      * rewrite Hclosed. split; (intros [?|?]; [by left|right; lia]).
      * intros _. destruct n; [by inversion Hrun|]. apply Hconn. lia.
Qed.

Lemma close_times_drains_witness :
  ∃ c', close_times 3 (open_client [seek_message; seek_message]) = Done c'
    ∧ buf (send c') = []
    ∧ chan_closed (send c') = true
    ∧ conn_closed (Conn_ c') = true.
Proof.
  destruct (close_times_drains 3 (open_client [seek_message; seek_message]))
    as (c' & Hrun & Hbuf & Hclosed & Hconn & _).
  exists c'. split; [exact Hrun|]. split; [exact Hbuf|]. split.
  - apply Hclosed. right. simpl. lia.
  - apply Hconn. lia.
Defined.

Lemma registerClient_Some (c : ClientId) (s : State) (cs : gset ClientId) :
  clients (room s) = Some cs ->
  ∃ s', registerClient c s = Done s'
    ∧ clients (room s') = Some ({[c]} ∪ cs)
    ∧ heap s' = heap s
    ∧ cancelled (room s') = cancelled (room s)
    ∧ cleaned (room s') = cleaned (room s).
Proof. unfold registerClient. intros ->. eexists. by split_and!. Qed.

(** X7: admitting clients one after the other into a room whose
    client map is not nil never fails and adds exactly these clients to
    the set; when they are distinct and none of them was in the set,
    [ClientCount] grows by their number. In particular a new room that
    has admitted [n] distinct clients counts [n]. *)
Theorem registerClients_count (cs : list ClientId) (s : State) (old : gset ClientId) :
  clients (room s) = Some old ->
  ∃ s', registerClients cs s = Done s'
    ∧ members (room s') = list_to_set cs ∪ old
    ∧ heap s' = heap s
    ∧ (NoDup cs -> (∀ c, c ∈ cs -> c ∉ old) ->
       ClientCount s' = length cs + ClientCount s).
Proof.
  revert s old. induction cs as [|c rest IH]; intros s old Hold; simpl.
  - exists s. unfold ClientCount, members. rewrite Hold. simpl.
    split_and!; try done. set_solver.
  - destruct (registerClient_Some c s old Hold) as (s1 & Hreg & Hcs1 & Hheap1 & _).
    rewrite Hreg. simpl.
    destruct (IH s1 _ Hcs1) as (s' & Hrun & Hmem & Hheap & Hcount).
    exists s'. split; [done|]. split; [rewrite Hmem; set_solver|].
    split; [congruence|].
    intros [Hc Hnd]%NoDup_cons Hfresh.
    rewrite Hcount; [|done|].
    + unfold ClientCount, members. rewrite Hcs1, Hold. simpl.
      rewrite size_union, size_singleton; [lia|].
      assert (c ∉ old) by (apply Hfresh; by left). set_solver.
    + intros x Hx [->%elem_of_singleton|Hin]%elem_of_union; [done|].
      by apply (Hfresh x); [right|].
Qed.

Lemma registerClients_count_witness :
  ∃ s', registerClients [5; 6; 7]%positive started_room = Done s'
    ∧ ClientCount s' = 3.
Proof.
  destruct (registerClients_count [5; 6; 7]%positive started_room ∅ eq_refl)
    as (s' & Hrun & _ & _ & Hcount).
  exists s'. split; [exact Hrun|].
  rewrite Hcount; [reflexivity| |].
  - compute_done.
  - intros c _ Hc. by apply elem_of_empty in Hc.
Defined.

Lemma unregisterClient_stranger (c : ClientId) (s : State) :
  c ∉ members (room s) -> unregisterClient c s = Done s.
Proof.
  unfold unregisterClient, members. destruct (clients (room s)) as [cs|]; simpl; [|done].
  intros Hc. by rewrite decide_False.
Qed.

Lemma unregisterClient_inv (c : ClientId) (s s' : State) :
  unregisterClient c s = Done s' -> c ∉ members (room s').
Proof.
  unfold unregisterClient, members.
  destruct (clients (room s)) as [cs|] eqn:Hcs; simpl.
  - case_decide as Hin.
    + destruct (close_client c (heap s)); [|discriminate]. simpl.
      intros [= <-]. simpl. set_solver.
    + intros [= <-]. by rewrite Hcs.
  - intros [= <-]. rewrite Hcs. simpl. set_solver.
Qed.

(** X8: eviction is idempotent. Unregistering a client that is not in
    the set, also from a room that has been torn down, returns the
    state unchanged; and after [unregisterClient] has completed the
    client is not in the set, so that a second call for it changes
    nothing: the client is not closed again and the room is not
    cancelled again. *)
Theorem unregisterClient_idempotent (c : ClientId) (s : State) :
  (c ∉ members (room s) -> unregisterClient c s = Done s)
  ∧ (∀ s', unregisterClient c s = Done s' ->
       (c ∉ members (room s')) ∧ unregisterClient c s' = Done s').
Proof.
  split; [apply unregisterClient_stranger|].
  intros s' Hrun. pose proof (unregisterClient_inv _ _ _ Hrun) as Hout.
  split; [done|]. by apply unregisterClient_stranger.
Qed.

Lemma unregisterClient_idempotent_witness :
  unregisterClient 9%positive saturated_state = Done saturated_state
  ∧ (2%positive ∉ members (room (end_state (unregisterClient 2%positive saturated_state)
                                          saturated_state)))
  ∧ unregisterClient 2%positive
      (end_state (unregisterClient 2%positive saturated_state) saturated_state)
    = Done (end_state (unregisterClient 2%positive saturated_state) saturated_state).
Proof.
  split.
  - apply (proj1 (unregisterClient_idempotent 9%positive saturated_state)). compute_done.
  - apply (proj2 (unregisterClient_idempotent 2%positive saturated_state)).
    vm_compute. reflexivity.
Defined.

(** X9: unregistering a client that is in the set never panics when
    the client object exists: the client is taken out of the set, which
    loses exactly this one member, the client is closed as [close()]
    closes it, no other client is touched, and the room is cancelled
    exactly if it was cancelled before or the client was the last one
    in the set. *)
Theorem unregisterClient_member (c : ClientId) (s : State) (cl : Client) :
  c ∈ members (room s) ->
  heap s !! c = Some cl ->
  ∃ s', unregisterClient c s = Done s'
    ∧ members (room s') = members (room s) ∖ {[c]}
    ∧ ClientCount s' + 1 = ClientCount s
    ∧ heap s' = <[c := after_close cl]> (heap s)
    ∧ (cancelled (room s') = true
       ↔ cancelled (room s) = true ∨ members (room s) = {[c]})
    ∧ cleaned (room s') = cleaned (room s).
Proof.
  unfold unregisterClient, ClientCount, members. intros Hin Hcl.
  destruct (clients (room s)) as [cs|] eqn:Hcs; simpl in *;
    [|by apply elem_of_empty in Hin].
  rewrite decide_True by done. rewrite (close_client_Done _ _ _ Hcl). simpl.
  eexists. split; [reflexivity|]. simpl. split_and!; try done.
  - rewrite size_difference by set_solver. rewrite size_singleton.
    assert (size cs ≠ 0) by (apply size_non_empty_iff; set_solver). lia.
  - case_decide as Hlast.
    + split; [|done]. intros _. right.
      assert (cs ∖ {[c]} ≡ ∅) as Hempty by (by apply size_empty_iff).
      apply set_eq. intros x. rewrite elem_of_singleton. split; [|by intros ->].
      intros Hx. destruct (decide (x = c)) as [|Hne]; [done|].
      exfalso. apply (not_elem_of_empty (C:=gset ClientId) x). rewrite <- Hempty.
      apply elem_of_difference. split; [done|]. by rewrite elem_of_singleton.
    + split; [by left|]. intros [?|Hone]; [done|].
      exfalso. apply Hlast. rewrite Hone. apply size_empty_iff.
      intros x. rewrite elem_of_difference. split; [tauto|].
      intros Hx. by apply elem_of_empty in Hx.
Qed.

Lemma unregisterClient_member_witness :
  ∃ s', unregisterClient 1%positive slow_reader_state = Done s'
    ∧ ClientCount s' + 1 = ClientCount slow_reader_state
    ∧ cancelled (room s') = true.
Proof.
  destruct (unregisterClient_member 1%positive slow_reader_state (open_client full_queue))
    as (s' & Hrun & _ & Hcount & _ & Hcancel & _).
  - compute_done.
  - reflexivity.
  - exists s'. split; [exact Hrun|]. split; [exact Hcount|].
    apply Hcancel. right. reflexivity.
Defined.

(** ** The order of the iteration over the client map *)

Lemma sendTo_keeps_known (msg : Message) (e : ClientId) (h h1 : gmap ClientId Client) :
  sendTo msg e h = Done h1 -> ∀ x, is_Some (h !! x) -> is_Some (h1 !! x).
Proof.
  unfold sendTo. intros Hrun x Hx. case_decide; [by inversion Hrun; subst|].
  destruct (h !! e) as [c|] eqn:He; [|discriminate].
  destruct (try_send msg (send c)); [| |discriminate].
  - inversion Hrun; subst. rewrite lookup_insert_is_Some'. auto.
  - rewrite (close_client_Done _ _ _ He) in Hrun. inversion Hrun; subst.
    rewrite lookup_insert_is_Some'. auto.
Qed.

Lemma range_sendTo_panic (msg : Message) (order : list ClientId) :
  ∀ (h : gmap ClientId Client) (why : panic),
    (∀ e, e ∈ order -> is_Some (h !! e)) ->
    range_clients (sendTo msg) order h = Panicked why ->
    why = SendOnClosedChannel.
Proof.
  induction order as [|a rest IH]; intros h why Hvalid Hrun; simpl in Hrun; [discriminate|].
  destruct (sendTo_turn_or_panic msg a h) as [Hp|(h1 & Hturn & _ & _)].
  - intros _. apply Hvalid. by left.
  - rewrite Hp in Hrun. simpl in Hrun. congruence.
  - rewrite Hturn in Hrun. simpl in Hrun. apply (IH h1); [|done].
    intros e He. eapply sendTo_keeps_known; [done|]. apply Hvalid. by right.
Qed.

Lemma heap_eq_by_members (s : State) (after : ClientId -> Client -> Client)
    (h1 h2 : gmap ClientId Client) (order1 order2 : list ClientId) :
  range_order (room s) order1 ->
  range_order (room s) order2 ->
  (∀ d, h1 !! d = if decide (d ∈ order1) then after d <$> heap s !! d else heap s !! d) ->
  (∀ d, h2 !! d = if decide (d ∈ order2) then after d <$> heap s !! d else heap s !! d) ->
  h1 = h2.
Proof.
  intros Ho1 Ho2 H1 H2. apply map_eq. intros d. rewrite H1, H2.
  destruct (decide (d ∈ order1)) as [Hd|Hd].
  - rewrite decide_True; [done|].
    by apply (range_order_elem_of _ _ _ Ho2), (range_order_elem_of _ _ _ Ho1).
  - rewrite decide_False; [done|]. intros Hd2. apply Hd.
    by apply (range_order_elem_of _ _ _ Ho1), (range_order_elem_of _ _ _ Ho2).
Qed.

(** X10: the result of a broadcast does not depend on the order in
    which the client map is iterated: for any two enumerations of the
    client set, [sendMessage] ends in the same state, or panics in both
    (with a send on a closed channel). *)
Theorem sendMessage_order_independent
    (order1 order2 : list ClientId) (msg : Message) (s : State) :
  range_order (room s) order1 ->
  range_order (room s) order2 ->
  (∀ e, e ∈ members (room s) -> is_Some (heap s !! e)) ->
  sendMessage order1 msg s = sendMessage order2 msg s.
Proof.
  intros Ho1 Ho2 Hvalid.
  destruct (decide (set_Exists (λ d, closed_receiver msg s d = true) (members (room s))))
    as [(d & Hd & Hclosed)|Hnone].
  - unfold closed_receiver in Hclosed. apply andb_true_iff in Hclosed as [Hne Hc].
    apply bool_decide_eq_true in Hne.
    destruct (heap s !! d) as [c|] eqn:Hcl; [|discriminate].
    rewrite (sendMessage_closed_queue order1 msg s d c) by done.
    by rewrite (sendMessage_closed_queue order2 msg s d c).
  - assert (∀ d, d ∈ members (room s) -> Some d ≠ From_ msg ->
              ∃ c, heap s !! d = Some c ∧ chan_closed (send c) = false) as Hopen.
    { intros d Hd Hne. destruct (Hvalid d Hd) as [c Hc]. exists c. split; [done|].
      destruct (chan_closed (send c)) eqn:Hclosed; [|done].
      exfalso. apply Hnone. exists d. split; [done|].
      unfold closed_receiver. rewrite Hc, Hclosed, bool_decide_eq_true_2; done. }
    destruct (range_clients_Done (sendTo msg) (after_sendTo msg)
                (λ d o, Some d ≠ From_ msg ->
                        ∃ c, o = Some c ∧ chan_closed (send c) = false)
                (sendTo_turn msg) order1 (heap s)) as (h1 & Hrun1 & Hlook1).
    { by eapply range_order_NoDup. }
    { intros d Hd. apply Hopen. by apply (range_order_elem_of _ _ _ Ho1). }
    destruct (range_clients_Done (sendTo msg) (after_sendTo msg)
                (λ d o, Some d ≠ From_ msg ->
                        ∃ c, o = Some c ∧ chan_closed (send c) = false)
                (sendTo_turn msg) order2 (heap s)) as (h2 & Hrun2 & Hlook2).
    { by eapply range_order_NoDup. }
    { intros d Hd. apply Hopen. by apply (range_order_elem_of _ _ _ Ho2). }
    unfold sendMessage. rewrite Hrun1, Hrun2. simpl.
    by rewrite (heap_eq_by_members s (after_sendTo msg) h1 h2 order1 order2).
Qed.

Lemma sendMessage_order_independent_witness :
  sendMessage [1; 2; 3]%positive from_first saturated_state
  = sendMessage [3; 2; 1]%positive from_first saturated_state.
Proof.
  apply sendMessage_order_independent.
  - exact saturated_state_order.
  - unfold range_order.
    replace (elements (members (room saturated_state))) with [3; 2; 1]%positive
      by (vm_compute; reflexivity).
    reflexivity.
  - exact saturated_state_valid.
Defined.

(** X11: the result of the teardown does not depend on the order in
    which the client map is iterated either: for any two enumerations
    of the client set, [cleanup] ends in the same state, or panics in
    both (with a close of a closed channel). *)
Theorem cleanup_order_independent (order1 order2 : list ClientId) (s : State) :
  range_order (room s) order1 ->
  range_order (room s) order2 ->
  (∀ e, e ∈ members (room s) -> is_Some (heap s !! e)) ->
  cleanup order1 s = cleanup order2 s.
Proof.
  intros Ho1 Ho2 Hvalid.
  destruct (cleaned (room s)) eqn:Hflag; [by rewrite !cleanup_again|].
  destruct (decide (set_Exists (λ d, closed_member s d = true) (members (room s))))
    as [(d & Hd & Hclosed)|Hnone].
  - unfold closed_member in Hclosed.
    destruct (heap s !! d) as [c|] eqn:Hcl; [|discriminate].
    rewrite (cleanup_closed_queue order1 s d c) by done.
    by rewrite (cleanup_closed_queue order2 s d c).
  - assert (∀ d, d ∈ members (room s) ->
              ∃ c, heap s !! d = Some c ∧ chan_closed (send c) = false) as Hopen.
    { intros d Hd. destruct (Hvalid d Hd) as [c Hc]. exists c. split; [done|].
      destruct (chan_closed (send c)) eqn:Hclosed; [|done].
      exfalso. apply Hnone. exists d. split; [done|].
      unfold closed_member. by rewrite Hc. }
    destruct (range_clients_Done cleanup_client (λ _, after_cleanup)
                (λ _ o, ∃ c, o = Some c ∧ chan_closed (send c) = false)
                cleanup_client_turn order1 (heap s)) as (h1 & Hrun1 & Hlook1).
    { by eapply range_order_NoDup. }
    { intros d Hd. apply Hopen. by apply (range_order_elem_of _ _ _ Ho1). }
    destruct (range_clients_Done cleanup_client (λ _, after_cleanup)
                (λ _ o, ∃ c, o = Some c ∧ chan_closed (send c) = false)
                cleanup_client_turn order2 (heap s)) as (h2 & Hrun2 & Hlook2).
    { by eapply range_order_NoDup. }
    { intros d Hd. apply Hopen. by apply (range_order_elem_of _ _ _ Ho2). }
    unfold cleanup. rewrite Hflag, Hrun1, Hrun2. simpl.
    by rewrite (heap_eq_by_members s (λ _, after_cleanup) h1 h2 order1 order2).
Qed.

Lemma cleanup_order_independent_witness :
  cleanup [1; 2; 3]%positive saturated_state = cleanup [3; 2; 1]%positive saturated_state.
Proof.
  apply cleanup_order_independent.
  - exact saturated_state_order.
  - unfold range_order.
    replace (elements (members (room saturated_state))) with [3; 2; 1]%positive
      by (vm_compute; reflexivity).
    reflexivity.
  - exact saturated_state_valid.
Defined.

(** ** The loops of a client *)

Lemma receiveHandler_cons_frame
    (c : ClientId) (cl : Client) (msg : Message) (now : GoTime) (rest : list ReadEvent) :
  receiveHandler c cl (ReadFrame msg now :: rest) =
    (match receiveFrame c msg now with
     | Some out => [(Room_ cl, out)]
     | None => []
     end ++ (receiveHandler c cl rest).1,
     (receiveHandler c cl rest).2)%list.
Proof.
  simpl. destruct (receiveFrame c msg now); by destruct (receiveHandler c cl rest).
Qed.

(** X12: the read loop returns exactly when a read fails: neither an
    undecodable frame nor a frame of an unknown kind ends it. What it
    has read after the failed read plays no part. *)
Theorem receiveHandler_returns_on_error (c : ClientId) (cl : Client) (evs : list ReadEvent) :
  ((receiveHandler c cl evs).2 = true ↔ ReadError ∈ evs)
  ∧ (∀ more, receiveHandler c cl (evs ++ ReadError :: more)
             = receiveHandler c cl (evs ++ [ReadError])).
Proof.
  induction evs as [|ev rest [IHret IHmore]].
  - split; [|done]. simpl. split; [done|]. intros H. by apply elem_of_nil in H.
  - destruct ev as [| |msg now].
    + split; [|done]. simpl. split; [intros _; by left|done].
    + split.
      * simpl. rewrite IHret. split; [by right|].
        intros [?|?]%elem_of_cons; [discriminate|done].
      * intros more. simpl. apply IHmore.
    + split.
      * rewrite receiveHandler_cons_frame. simpl. rewrite IHret. split; [by right|].
        intros [?|?]%elem_of_cons; [discriminate|done].
      * intros more. rewrite <- !app_comm_cons, !receiveHandler_cons_frame.
        by rewrite IHmore.
Qed.

Lemma receiveHandler_returns_on_error_witness :
  (receiveHandler 1%positive (open_client [])
     [ReadInvalid; ReadError; ReadFrame seek_message 8%Z]).2 = true
  ∧ receiveHandler 1%positive (open_client [])
      ([ReadFrame seek_message 8%Z] ++ ReadError :: [ReadFrame seek_message 9%Z])
    = receiveHandler 1%positive (open_client [])
        ([ReadFrame seek_message 8%Z] ++ [ReadError]).
Proof.
  split.
  - apply (receiveHandler_returns_on_error 1%positive (open_client [])
             [ReadInvalid; ReadError; ReadFrame seek_message 8%Z]).
    apply elem_of_cons. right. apply elem_of_cons. left. reflexivity.
  - apply (receiveHandler_returns_on_error 1%positive (open_client [])
             [ReadFrame seek_message 8%Z]).
Defined.

(** X13: every message the read loop of a client submits goes to the
    room of that client, has that client as its origin and a
    recognized command kind, and stands for one of the frames read, with
    the time of receipt of that frame as its timestamp. The loop
    submits at most one message for each frame, and reading on never
    takes back or reorders what has been submitted. *)
Theorem receiveHandler_submits (c : ClientId) (cl : Client) (evs more : list ReadEvent) :
  Forall (λ out, out.1 = Room_ cl
                 ∧ From_ out.2 = Some c
                 ∧ validCommand (Type_ out.2) = true
                 ∧ ∃ ev, ev ∈ evs ∧ frame_of c ev out.2)
         (receiveHandler c cl evs).1
  ∧ length (receiveHandler c cl evs).1 <= length evs
  ∧ ((receiveHandler c cl evs).2 = false ->
     (receiveHandler c cl evs).1 `prefix_of` (receiveHandler c cl (evs ++ more)).1)
  ∧ ((receiveHandler c cl evs).2 = true ->
     receiveHandler c cl (evs ++ more) = receiveHandler c cl evs).
Proof.
  induction evs as [|ev rest (IHall & IHlen & IHpre & IHend)].
  - simpl. split_and!; [constructor|lia| |done]. intros _. apply prefix_nil.
  - destruct ev as [| |msg now].
    + simpl. split_and!; [constructor|lia|done|done].
    + simpl. split_and!; [|lia|done|done].
      eapply Forall_impl; [exact IHall|]. simpl.
      intros out (? & ? & ? & ev & Hev & Hframe). split_and!; try done.
      exists ev. split; [by right|done].
    + rewrite <- app_comm_cons, !receiveHandler_cons_frame. simpl.
      split_and!.
      * apply Forall_app. split.
        -- unfold receiveFrame. destruct (validCommand (Type_ msg)) eqn:Hvalid;
             constructor; [|constructor]. simpl. split_and!; try done.
           exists (ReadFrame msg now). split; [by left|]. by exists msg, now.
        -- eapply Forall_impl; [exact IHall|]. simpl.
           intros out (? & ? & ? & ev & Hev & Hframe). split_and!; try done.
           exists ev. split; [by right|done].
      * rewrite length_app. destruct (receiveFrame c msg now); simpl; lia.
      * intros Hret. apply prefix_app. by apply IHpre.
      * intros Hret. by rewrite IHend.
Qed.

Lemma receiveHandler_submits_witness :
  (receiveHandler 1%positive (open_client []) [ReadFrame seek_message 8%Z]).1
  `prefix_of`
  (receiveHandler 1%positive (open_client [])
     ([ReadFrame seek_message 8%Z] ++ [ReadInvalid; ReadFrame seek_message 9%Z])).1.
Proof.
  apply (receiveHandler_submits 1%positive (open_client []) [ReadFrame seek_message 8%Z]
           [ReadInvalid; ReadFrame seek_message 9%Z]).
  reflexivity.
Defined.

Lemma string_append_assoc (a b c : string) : ((a ++ b) ++ c = a ++ (b ++ c))%string.
Proof.
  induction a as [|x a IH]; [done|].
  change (String x ((a ++ b) ++ c) = String x (a ++ (b ++ c)))%string. by f_equal.
Qed.

Section WireLoop.
Variable encodeString : string -> string.
Variable encodeFloat : float64 -> option string.
Variable encodeTime : GoTime -> option string.
Variable isEmptyValue : float64 -> bool.

(** X14: [json.Marshal] of a message fails exactly when the playback
    time is to be written and has no JSON form, or when the timestamp
    has none; the kind never makes it fail. When it succeeds, the text
    is one JSON object with the members type, time (unless empty) and
    timestamp, in this order. *)
Theorem Marshal_result (m : Message) :
  (Marshal encodeString encodeFloat encodeTime isEmptyValue m = None
   ↔ (isEmptyValue (Time_ m) = false ∧ encodeFloat (Time_ m) = None)
     ∨ encodeTime (Timestamp m) = None)
  ∧ (∀ ts, isEmptyValue (Time_ m) = true ->
       encodeTime (Timestamp m) = Some ts ->
       Marshal encodeString encodeFloat encodeTime isEmptyValue m =
         Some ("{" ++ quote ++ "type" ++ quote ++ ":" ++ encodeString (Type_ m)
               ++ "," ++ quote ++ "timestamp" ++ quote ++ ":" ++ ts ++ "}"))
  ∧ (∀ t ts, isEmptyValue (Time_ m) = false ->
       encodeFloat (Time_ m) = Some t ->
       encodeTime (Timestamp m) = Some ts ->
       Marshal encodeString encodeFloat encodeTime isEmptyValue m =
         Some ("{" ++ quote ++ "type" ++ quote ++ ":" ++ encodeString (Type_ m)
               ++ "," ++ quote ++ "time" ++ quote ++ ":" ++ t
               ++ "," ++ quote ++ "timestamp" ++ quote ++ ":" ++ ts ++ "}")).
Proof.
  unfold Marshal, wireFields. split; [|split].
  - destruct (isEmptyValue (Time_ m)); simpl; unfold encodeField; simpl.
    + destruct (encodeTime (Timestamp m)); simpl.
      * split; [discriminate|]. intros [[? _]|?]; discriminate.
      * split; [|done]. intros _. by right.
    + destruct (encodeFloat (Time_ m)), (encodeTime (Timestamp m)); simpl.
      * split; [discriminate|]. intros [[_ ?]|?]; discriminate.
      * split; [|done]. intros _. by right.
      * split; [|done]. intros _. by left.
      * split; [|done]. intros _. by right.
  - intros ts -> Hts. simpl. unfold encodeField. simpl. rewrite Hts. simpl.
    by rewrite !string_append_assoc.
  - intros t ts -> Ht Hts. simpl. unfold encodeField. simpl. rewrite Ht, Hts. simpl.
    by rewrite !string_append_assoc.
Qed.

Lemma sendHandler_cons (ev : SendEvent) (rest : list SendEvent) :
  stops encodeString encodeFloat encodeTime isEmptyValue ev = false ->
  sendHandler encodeString encodeFloat encodeTime isEmptyValue (ev :: rest) =
    ((frames_of encodeString encodeFloat encodeTime isEmptyValue ev
      ++ (sendHandler encodeString encodeFloat encodeTime isEmptyValue rest).1)%list,
     (sendHandler encodeString encodeFloat encodeTime isEmptyValue rest).2).
Proof.
  destruct ev as [m written| |written]; simpl; [|discriminate|].
  - destruct (Marshal encodeString encodeFloat encodeTime isEmptyValue m) as [data|].
    + destruct written; [|discriminate]. intros _.
      by destruct (sendHandler encodeString encodeFloat encodeTime isEmptyValue rest).
    + intros _. destruct written;
        by destruct (sendHandler encodeString encodeFloat encodeTime isEmptyValue rest).
  - destruct written; [|discriminate]. intros _.
    by destruct (sendHandler encodeString encodeFloat encodeTime isEmptyValue rest).
Qed.

Lemma frames_of_length (ev : SendEvent) :
  length (frames_of encodeString encodeFloat encodeTime isEmptyValue ev) <= 1.
Proof.
  destruct ev as [m [|]| |[|]]; simpl; try lia.
  destruct (Marshal encodeString encodeFloat encodeTime isEmptyValue m); simpl; lia.
Qed.

Lemma sendHandler_stops (ev : SendEvent) (rest : list SendEvent) :
  stops encodeString encodeFloat encodeTime isEmptyValue ev = true ->
  sendHandler encodeString encodeFloat encodeTime isEmptyValue (ev :: rest) = ([], true).
Proof.
  destruct ev as [m written| |written]; simpl; [|done|].
  - destruct (Marshal encodeString encodeFloat encodeTime isEmptyValue m); [|discriminate].
    by destruct written.
  - by destruct written.
Qed.

(** X15: the write loop returns exactly when the queue is closed or a
    write fails; a message that cannot be marshalled is skipped and
    never ends the loop. Nothing is written by the turn that ends the
    loop nor after it, each earlier turn writes at most one frame, and
    the frames written so far stay as they are when the loop goes on. *)
Theorem sendHandler_returns (evs : list SendEvent) :
  ((sendHandler encodeString encodeFloat encodeTime isEmptyValue evs).2 = true
   ↔ Exists (λ ev, stops encodeString encodeFloat encodeTime isEmptyValue ev = true) evs)
  ∧ length (sendHandler encodeString encodeFloat encodeTime isEmptyValue evs).1 <= length evs
  ∧ (∀ more,
       (sendHandler encodeString encodeFloat encodeTime isEmptyValue evs).1
       `prefix_of`
       (sendHandler encodeString encodeFloat encodeTime isEmptyValue (evs ++ more)).1)
  ∧ (∀ more,
       (sendHandler encodeString encodeFloat encodeTime isEmptyValue evs).2 = true ->
       sendHandler encodeString encodeFloat encodeTime isEmptyValue (evs ++ more)
       = sendHandler encodeString encodeFloat encodeTime isEmptyValue evs)
  ∧ (∀ m written rest,
       Marshal encodeString encodeFloat encodeTime isEmptyValue m = None ->
       sendHandler encodeString encodeFloat encodeTime isEmptyValue
         (QueueMessage m written :: rest)
       = sendHandler encodeString encodeFloat encodeTime isEmptyValue rest).
Proof.
  split_and!.
  - induction evs as [|ev rest IH].
    + simpl. split; [done|]. intros H. by apply Exists_nil in H.
    + destruct (stops encodeString encodeFloat encodeTime isEmptyValue ev) eqn:Hstop.
      * rewrite (sendHandler_stops _ _ Hstop). simpl. split; [|done].
        intros _. by left.
      * rewrite (sendHandler_cons ev rest Hstop). simpl.
        rewrite IH. split; [by right|].
        intros [?|?]%Exists_cons; [congruence|done].
  - induction evs as [|ev rest IH]; [simpl; lia|].
    destruct (stops encodeString encodeFloat encodeTime isEmptyValue ev) eqn:Hstop.
    + rewrite (sendHandler_stops _ _ Hstop). simpl. lia.
    + rewrite (sendHandler_cons ev rest Hstop). simpl.
      rewrite length_app. pose proof (frames_of_length ev). lia.
  - intros more. induction evs as [|ev rest IH]; [apply prefix_nil|].
    rewrite <- app_comm_cons.
    destruct (stops encodeString encodeFloat encodeTime isEmptyValue ev) eqn:Hstop.
    + by rewrite !(sendHandler_stops _ _ Hstop).
    + rewrite !(sendHandler_cons ev _ Hstop). simpl. by apply prefix_app.
  - intros more. induction evs as [|ev rest IH]; [discriminate|].
    rewrite <- app_comm_cons.
    destruct (stops encodeString encodeFloat encodeTime isEmptyValue ev) eqn:Hstop.
    + by rewrite !(sendHandler_stops _ _ Hstop).
    + rewrite !(sendHandler_cons ev _ Hstop). simpl.
      intros Hret. by rewrite (IH Hret).
  - intros m written rest Hm. simpl. by rewrite Hm.
Qed.

End WireLoop.

Lemma sendHandler_returns_witness :
  sendHandler (λ x, x) (λ _, Some "42.5") (λ _, Some "0") (λ _, false)
    ([QueueMessage seek_message true; Tick false] ++ [Tick true])
  = sendHandler (λ x, x) (λ _, Some "42.5") (λ _, Some "0") (λ _, false)
      [QueueMessage seek_message true; Tick false].
Proof.
  apply (sendHandler_returns (λ x, x) (λ _, Some "42.5") (λ _, Some "0") (λ _, false)
           [QueueMessage seek_message true; Tick false]).
  reflexivity.
Defined.


Lemma Marshal_result_witness :
  Marshal (λ x, x) (λ _, Some "42.5") (λ _, Some "0") (λ _, false) seek_message
  = Some ("{" ++ quote ++ "type" ++ quote ++ ":" ++ "seek"
          ++ "," ++ quote ++ "time" ++ quote ++ ":" ++ "42.5"
          ++ "," ++ quote ++ "timestamp" ++ quote ++ ":" ++ "0" ++ "}").
Proof.
  apply (proj2 (proj2 (Marshal_result (λ x, x) (λ _, Some "42.5") (λ _, Some "0")
                         (λ _, false) seek_message)) "42.5" "0"); reflexivity.
Defined.

(** ** The hub at work *)

Lemma getRoom_cases (key : string) (h : Hub) :
  (key = EmptyString ∧ getRoom key h = (None, h))
  ∨ (key ≠ EmptyString ∧ ∃ r, Rooms h !! key = Some r ∧ getRoom key h = (Some r, h))
  ∨ (key ≠ EmptyString ∧ Rooms h !! key = None
     ∧ getRoom key h =
         (Some (fresh (dom (rooms h))),
          {| Rooms := <[key := fresh (dom (rooms h))]> (Rooms h);
             rooms := <[fresh (dom (rooms h)) := NewRoom]> (rooms h);
             running := {[fresh (dom (rooms h))]} ∪ running h;
             watchers := (fresh (dom (rooms h)), key) :: watchers h |})).
Proof.
  destruct (decide (key = EmptyString)) as [->|Hkey]; [by left|right].
  destruct (Rooms h !! key) as [r|] eqn:Hr.
  - left. split; [done|]. exists r. split; [done|]. by apply getRoom_present.
  - right. split; [done|]. split; [done|]. by apply getRoom_absent.
Qed.


(** X16: asking the hub twice for the same key gives the same room,
    and the second call changes nothing: at most the first call creates
    a room. A call of [getRoom] never removes or remaps a key, never
    touches the entry of another key, and never drops a room object. *)
Theorem getRoom_again (key : string) (h : Hub) :
  getRoom key (getRoom key h).2 = ((getRoom key h).1, (getRoom key h).2)
  ∧ (∀ k r, Rooms h !! k = Some r -> Rooms (getRoom key h).2 !! k = Some r)
  ∧ (∀ k, k ≠ key -> Rooms (getRoom key h).2 !! k = Rooms h !! k)
  ∧ (∀ r R, rooms h !! r = Some R -> rooms (getRoom key h).2 !! r = Some R).
Proof.
  destruct (getRoom_cases key h) as [[-> ->]|[(Hkey & r & Hr & ->)|(Hkey & Hnone & ->)]];
    simpl.
  - by split_and!.
  - split_and!; try done. by apply getRoom_present.
  - split_and!.
    + apply getRoom_present; [done|]. simpl. by rewrite lookup_insert_eq.
    + intros k r Hk. rewrite lookup_insert_ne; [done|]. congruence.
    + intros k Hk. by rewrite lookup_insert_ne.
    + intros r R Hr. rewrite lookup_insert_ne; [done|].
      intros <-. apply (is_fresh (dom (rooms h))). apply elem_of_dom. eauto.
Qed.

Lemma getRoom_again_witness :
  Rooms (getRoom "xyz" one_room_hub).2 !! "abc" = Some 1%positive
  ∧ Rooms (getRoom "xyz" one_room_hub).2 !! "abc" = Rooms one_room_hub !! "abc".
Proof.
  destruct (getRoom_again "xyz" one_room_hub) as (_ & Hkeep & Hother & _).
  split.
  - apply Hkeep. vm_compute. reflexivity.
  - apply Hother. discriminate.
Defined.

(** X17: the check repeated under the write lock makes two first
    lookups of the same key agree: when both have missed the key on the
    fast path, the one that takes the lock first creates the room, and
    the other one finds it there, returns it and creates nothing, also
    when rooms for other keys have been created in between. *)
Theorem getRoom_locked_race (key : string) (others : list string) (h : Hub) :
  Rooms h !! key = None ->
  ∃ r h1,
    getRoom_locked key h = (Some r, h1)
    ∧ size (rooms h1) = S (size (rooms h))
    ∧ getRoom_locked key h1 = (Some r, h1)
    ∧ getRoom_locked key (foldr (λ k h', (getRoom_locked k h').2) h1 others)
      = (Some r, foldr (λ k h', (getRoom_locked k h').2) h1 others).
Proof.
  intros Hnone. unfold getRoom_locked at 1. rewrite Hnone.
  eexists _, _. split; [reflexivity|]. simpl.
  split. { apply map_size_insert_None, not_elem_of_dom, is_fresh. }
  assert (∀ h' r, Rooms h' !! key = Some r -> getRoom_locked key h' = (Some r, h')) as Hhit.
  { intros h' r Hr. unfold getRoom_locked. by rewrite Hr. }
  split. { apply Hhit. simpl. by rewrite lookup_insert_eq. }
  apply Hhit. induction others as [|k rest IH]; simpl.
  - by rewrite lookup_insert_eq.
  - unfold getRoom_locked at 1.
    destruct (Rooms (foldr (λ k h', (getRoom_locked k h').2) _ rest) !! k) eqn:Hk;
      simpl; [done|].
    rewrite lookup_insert_ne; [done|]. intros ->. rewrite IH in Hk. discriminate.
Qed.

Lemma getRoom_locked_race_witness :
  ∃ r h1,
    getRoom_locked "xyz" one_room_hub = (Some r, h1)
    ∧ size (rooms h1) = 2
    ∧ getRoom_locked "xyz" h1 = (Some r, h1).
Proof.
  destruct (getRoom_locked_race "xyz" [] one_room_hub eq_refl)
    as (r & h1 & Hrun & Hsize & Hagain & _).
  exists r, h1. split; [exact Hrun|]. split; [|exact Hagain].
  rewrite Hsize. reflexivity.
Defined.

Lemma hub_exec_sound (a : HubAction) (h h' : Hub) :
  hub_exec a h = Some h' -> hub_sound h -> hub_sound h'.
Proof.
  intros Hexec (Hentry & Hwatch & Hnodup & Hinj).
  destruct a as [key|r R|r key]; simpl in Hexec.
  - injection Hexec as <-.
    destruct (getRoom_cases key h) as [[-> ->]|[(Hkey & r & Hr & ->)|(Hkey & Hnone & ->)]];
      simpl; try done.
    assert (∀ k r0, Rooms h !! k = Some r0 -> r0 ≠ fresh (dom (rooms h))) as Hfresh.
    { intros k r0 Hk ->. destruct (Hentry _ _ Hk) as (_ & Hsome & _).
      by apply (is_fresh (dom (rooms h))), elem_of_dom. }
    unfold hub_sound; simpl. split_and!.
    + intros k r. destruct (decide (k = key)) as [->|Hne].
      * rewrite lookup_insert_eq. intros [= <-]. split_and!; try done.
        -- by rewrite lookup_insert_eq.
        -- apply elem_of_union_l. by apply elem_of_singleton.
        -- by left.
      * rewrite lookup_insert_ne by done. intros Hk.
        destruct (Hentry _ _ Hk) as (? & ? & ? & ?). split_and!; try done.
        -- rewrite lookup_insert_is_Some'. auto.
        -- by apply elem_of_union_r.
        -- by right.
    + intros r k [[= -> ->]|Hin]%elem_of_cons; [by rewrite lookup_insert_eq|].
      pose proof (Hwatch _ _ Hin) as Hk.
      rewrite lookup_insert_ne; [done|]. congruence.
    + apply NoDup_cons. split; [|done]. intros Hin.
      pose proof (Hwatch _ _ Hin). congruence.
    + intros k1 k2 r.
      destruct (decide (k1 = key)) as [->|Hne1], (decide (k2 = key)) as [->|Hne2];
        try done.
      * rewrite lookup_insert_eq, lookup_insert_ne by done.
        intros [= <-] Hk. by destruct (Hfresh _ _ Hk).
      * rewrite lookup_insert_eq, lookup_insert_ne by done.
        intros Hk [= <-]. by destruct (Hfresh _ _ Hk).
      * rewrite !lookup_insert_ne by done. apply Hinj.
  - destruct (rooms h !! r) as [R0|] eqn:Hr; [|discriminate].
    case_decide; [|discriminate]. injection Hexec as <-.
    unfold hub_sound; simpl. split_and!; try done.
    intros k r' Hk. destruct (Hentry _ _ Hk) as (? & ? & ? & ?). split_and!; try done.
    rewrite lookup_insert_is_Some'. auto.
  - unfold watcher in Hexec. case_decide as Hin; [|discriminate].
    destruct (rooms h !! r) as [R|]; [|discriminate].
    destruct (cancelled R); [|discriminate]. injection Hexec as <-.
    pose proof (Hwatch _ _ Hin) as Hown.
    unfold hub_sound; simpl. split_and!.
    + intros k r'. destruct (decide (k = key)) as [->|Hne].
      * by rewrite lookup_delete_eq.
      * rewrite lookup_delete_ne by done. intros Hk.
        destruct (Hentry _ _ Hk) as (? & ? & ? & ?). split_and!; try done.
        apply list_elem_of_filter. split; [congruence|done].
    + intros r' k [Hne Hin']%list_elem_of_filter.
      pose proof (Hwatch _ _ Hin') as Hk.
      rewrite lookup_delete_ne; [done|]. intros <-. apply Hne. congruence.
    + by apply NoDup_filter.
    + intros k1 k2 r'.
      destruct (decide (k1 = key)) as [->|Hne1]; [by rewrite lookup_delete_eq|].
      destruct (decide (k2 = key)) as [->|Hne2]; [by rewrite lookup_delete_eq|].
      rewrite !lookup_delete_ne by done. apply Hinj.
Qed.

Lemma hub_reachable_sound (h : Hub) : hub_reachable h -> hub_sound h.
Proof.
  induction 1 as [|h a h' _ IH Hexec]; [|by eapply hub_exec_sound].
  unfold hub_sound; simpl. split_and!; try done.
  - intros r k Hin. by apply elem_of_nil in Hin.
  - constructor.
Qed.

(** X18: in every state the hub gets to, by calls of [getRoom], by
    rooms going about their work and by watchers ending, the directory
    is consistent: every key in it is not empty and maps to a room
    object that exists, whose loop has been started and whose watcher
    is still waiting; every waiting watcher belongs to an entry of the
    directory; and no two keys share a room. *)
Theorem hub_directory_consistent (h : Hub) :
  hub_reachable h ->
  (∀ k r, Rooms h !! k = Some r ->
     k ≠ EmptyString ∧ is_Some (rooms h !! r) ∧ r ∈ running h ∧ (r, k) ∈ watchers h)
  ∧ (∀ r k, (r, k) ∈ watchers h -> Rooms h !! k = Some r)
  ∧ (∀ k1 k2 r, Rooms h !! k1 = Some r -> Rooms h !! k2 = Some r -> k1 = k2).
Proof.
  intros Hreach. destruct (hub_reachable_sound h Hreach) as (H1 & H2 & _ & H4). done.
Qed.

(** X19: a watcher that ends removes the entry of its own room and
    nothing else: the key mapped to that very room before, it is absent
    afterwards, and every other key is as before. The next call of
    [getRoom] for the key then creates a room, which is not the old
    one. *)
Theorem watcher_removes_own_entry (r : RoomId) (key : string) (h h' : Hub) :
  hub_reachable h ->
  watcher r key h = Some h' ->
  Rooms h !! key = Some r
  ∧ Rooms h' !! key = None
  ∧ (∀ k, k ≠ key -> Rooms h' !! k = Rooms h !! k)
  ∧ rooms h' = rooms h
  ∧ ∃ r2 h2, getRoom key h' = (Some r2, h2)
      ∧ r2 ≠ r
      ∧ (r2 ∉ dom (rooms h'))
      ∧ Rooms h2 !! key = Some r2.
Proof.
  intros Hreach Hrun. destruct (hub_reachable_sound h Hreach) as (Hentry & Hwatch & _ & _).
  unfold watcher in Hrun. case_decide as Hin; [|discriminate].
  destruct (rooms h !! r) as [R|] eqn:HR; [|discriminate].
  destruct (cancelled R); [|discriminate]. injection Hrun as <-. simpl.
  pose proof (Hwatch _ _ Hin) as Hown.
  destruct (Hentry _ _ Hown) as (Hkey & _).
  split; [done|]. split; [by rewrite lookup_delete_eq|].
  split; [intros k Hk; by rewrite lookup_delete_ne|]. split; [done|].
  eexists _, _. split.
  { apply getRoom_absent; [done|]. simpl. by rewrite lookup_delete_eq. }
  simpl. split_and!.
  - intros Heq. apply (is_fresh (dom (rooms h))). rewrite Heq. apply elem_of_dom. eauto.
  - apply is_fresh.
  - by rewrite lookup_insert_eq.
Qed.

Lemma hub_run_reachable (acts : list HubAction) :
  ∀ h h', hub_reachable h -> hub_run acts h = Some h' -> hub_reachable h'.
Proof.
  induction acts as [|a rest IH]; intros h h' Hh Hrun; simpl in Hrun.
  - by inversion Hrun; subst.
  - destruct (hub_exec a h) as [h1|] eqn:Hexec; [|discriminate].
    apply (IH h1); [|done]. by eapply hub_reachable_step.
Qed.

Lemma hub_state_reachable (acts : list HubAction) : hub_reachable (hub_state acts).
Proof.
  unfold hub_state. destruct (hub_run acts empty_hub) as [h|] eqn:Hrun; simpl.
  - eapply hub_run_reachable; [apply hub_reachable_start|done].
  - apply hub_reachable_start.
Qed.

Lemma hub_directory_consistent_witness :
  (∀ k r, Rooms (hub_state [Resolve "abc"; Resolve "xyz"; Resolve "abc"]) !! k = Some r ->
     k ≠ EmptyString
     ∧ is_Some (rooms (hub_state [Resolve "abc"; Resolve "xyz"; Resolve "abc"]) !! r)
     ∧ r ∈ running (hub_state [Resolve "abc"; Resolve "xyz"; Resolve "abc"])
     ∧ (r, k) ∈ watchers (hub_state [Resolve "abc"; Resolve "xyz"; Resolve "abc"]))
  ∧ size (Rooms (hub_state [Resolve "abc"; Resolve "xyz"; Resolve "abc"])) = 2.
Proof.
  split.
  - apply (hub_directory_consistent (hub_state [Resolve "abc"; Resolve "xyz"; Resolve "abc"])).
    apply hub_state_reachable.
  - vm_compute. reflexivity.
Defined.

Lemma watcher_removes_own_entry_witness :
  Rooms (hub_state [Resolve "abc"; RoomChanges 1%positive cancelled_room]) !! "abc"
  = Some 1%positive
  ∧ Rooms (hub_state [Resolve "abc"; RoomChanges 1%positive cancelled_room;
                      WatcherEnds 1%positive "abc"]) !! "abc" = None.
Proof.
  destruct (watcher_removes_own_entry 1%positive "abc"
              (hub_state [Resolve "abc"; RoomChanges 1%positive cancelled_room])
              (hub_state [Resolve "abc"; RoomChanges 1%positive cancelled_room;
                          WatcherEnds 1%positive "abc"]))
    as (Hown & Hgone & _).
  - apply hub_state_reachable.
  - vm_compute. reflexivity.
  - split; [exact Hown|exact Hgone].
Defined.



(** ** Rooms without duplicates *)

Lemma removeDuplicateRooms_loop_result
    (seen : gset Z) (result rooms : list database.Room) :
  database.removeDuplicateRooms_loop seen result rooms
  = (result ++ database.removeDuplicateRooms_loop seen [] rooms)%list.
Proof.
  revert seen result. induction rooms as [|room rest IH]; intros seen result; simpl.
  - by rewrite app_nil_r.
  - case_decide; [apply IH|].
    rewrite IH, (IH _ [room]). by rewrite <- app_assoc.
Qed.

Lemma removeDuplicateRooms_loop_cons
    (seen : gset Z) (room : database.Room) (rest : list database.Room) :
  database.removeDuplicateRooms_loop seen [] (room :: rest) =
    if decide (database.ID room ∈ seen)
    then database.removeDuplicateRooms_loop seen [] rest
    else room :: database.removeDuplicateRooms_loop ({[database.ID room]} ∪ seen) [] rest.
Proof.
  simpl. case_decide; [done|]. by rewrite removeDuplicateRooms_loop_result.
Qed.

(** What the loop keeps, for any set of IDs seen before: rooms of new
    IDs only, each ID once, in the order of the input, and for each ID
    the first room that has it. *)
Lemma removeDuplicateRooms_loop_spec (rooms : list database.Room) :
  ∀ seen : gset Z,
    let out := database.removeDuplicateRooms_loop seen [] rooms in
    (∀ r, r ∈ out -> database.ID r ∉ seen)
    ∧ NoDup (map database.ID out)
    ∧ out `sublist_of` rooms
    ∧ (∀ r, r ∈ rooms -> database.ID r ∈ seen ∨ database.ID r ∈ map database.ID out)
    ∧ (∀ r, r ∈ out ->
         ∃ i, rooms !! i = Some r
           ∧ ∀ j r', j < i -> rooms !! j = Some r' -> database.ID r' ≠ database.ID r).
Proof.
  induction rooms as [|room rest IH]; intros seen out.
  - subst out. simpl. split_and!.
    + intros r Hr. by apply elem_of_nil in Hr.
    + constructor.
    + done.
    + intros r Hr. by apply elem_of_nil in Hr.
    + intros r Hr. by apply elem_of_nil in Hr.
  - subst out. rewrite removeDuplicateRooms_loop_cons. case_decide as Hseen.
    + destruct (IH seen) as (Hnew & Hnd & Hsub & Hall & Hfirst). split_and!.
      * done.
      * done.
      * by apply sublist_cons.
      * intros r [->|Hr]%elem_of_cons; [by left|by apply Hall].
      * intros r Hr. destruct (Hfirst r Hr) as (i & Hi & Hbefore).
        exists (S i). split; [done|]. intros [|j] r' Hj Hlook.
        -- simpl in Hlook. injection Hlook as <-. intros Heq.
           apply (Hnew r Hr). by rewrite <- Heq.
        -- apply (Hbefore j); [lia|done].
    + destruct (IH ({[database.ID room]} ∪ seen)) as (Hnew & Hnd & Hsub & Hall & Hfirst).
      split_and!.
      * intros r [->|Hr]%elem_of_cons; [done|].
        intros Hin. apply (Hnew r Hr). by apply elem_of_union_r.
      * simpl. apply NoDup_cons. split; [|done].
        intros (r & Heq & Hr)%list_elem_of_fmap.
        apply (Hnew r Hr). apply elem_of_union_l, elem_of_singleton. done.
      * by apply sublist_skip.
      * intros r [->|Hr]%elem_of_cons; [right; by left|].
        destruct (Hall r Hr) as [[Heq%elem_of_singleton|?]%elem_of_union|?].
        -- right. rewrite Heq. by left.
        -- by left.
        -- right. by right.
      * intros r [->|Hr]%elem_of_cons.
        -- exists 0. split; [done|]. intros j r' Hj. lia.
        -- destruct (Hfirst r Hr) as (i & Hi & Hbefore).
           exists (S i). split; [done|]. intros [|j] r' Hj Hlook.
           ++ simpl in Hlook. injection Hlook as <-. intros Heq.
              apply (Hnew r Hr). apply elem_of_union_l, elem_of_singleton. done.
           ++ apply (Hbefore j); [lia|done].
Qed.

(** X21: [removeDuplicateRooms] returns rooms of the input, in the
    order of the input, with every ID of the input exactly once, and for
    each ID it keeps the first room of the input that has it. *)
Theorem removeDuplicateRooms_first_of_each (rooms : list database.Room) :
  NoDup (map database.ID (database.removeDuplicateRooms rooms))
  ∧ database.removeDuplicateRooms rooms `sublist_of` rooms
  ∧ (∀ id, id ∈ map database.ID rooms
           ↔ id ∈ map database.ID (database.removeDuplicateRooms rooms))
  ∧ (∀ r, r ∈ database.removeDuplicateRooms rooms ->
       ∃ i, rooms !! i = Some r
         ∧ ∀ j r', j < i -> rooms !! j = Some r' -> database.ID r' ≠ database.ID r).
Proof.
  unfold database.removeDuplicateRooms.
  destruct (removeDuplicateRooms_loop_spec rooms ∅) as (_ & Hnd & Hsub & Hall & Hfirst).
  split_and!; try done.
  intros id. split.
  - intros (r & -> & Hr)%list_elem_of_fmap.
    destruct (Hall r Hr) as [Hin|?]; [by apply elem_of_empty in Hin|done].
  - intros (r & -> & Hr)%list_elem_of_fmap. apply list_elem_of_fmap. exists r.
    split; [done|]. by eapply elem_of_sublist.
Qed.

Lemma removeDuplicateRooms_first_of_each_witness :
  ∃ i, sample_rooms !! i = Some {| database.ID := 7; database.Key := "abc";
         database.Video := {| database.String_ := EmptyString; database.Valid := false |};
         database.Users := [] |}
    ∧ ∀ j r', j < i -> sample_rooms !! j = Some r' -> database.ID r' ≠ 7%Z.
Proof.
  apply (proj2 (proj2 (proj2 (removeDuplicateRooms_first_of_each sample_rooms)))).
  vm_compute. left.
Defined.

Lemma removeDuplicateRooms_loop_fresh (rooms : list database.Room) :
  ∀ seen : gset Z,
    NoDup (map database.ID rooms) ->
    (∀ r, r ∈ rooms -> database.ID r ∉ seen) ->
    database.removeDuplicateRooms_loop seen [] rooms = rooms.
Proof.
  induction rooms as [|room rest IH]; intros seen Hnd Hnew; [done|].
  rewrite removeDuplicateRooms_loop_cons. simpl in Hnd. apply NoDup_cons in Hnd as [Hout Hnd].
  rewrite decide_False by (apply Hnew; by left). f_equal. apply IH; [done|].
  intros r Hr [Heq%elem_of_singleton|Hin]%elem_of_union.
  - apply Hout. apply list_elem_of_fmap. by exists r.
  - by apply (Hnew r); [right|].
Qed.

(** X22: a list of rooms in which no ID occurs twice is returned as
    it is, and removing duplicates a second time changes nothing. *)
Theorem removeDuplicateRooms_idempotent (rooms : list database.Room) :
  (NoDup (map database.ID rooms) -> database.removeDuplicateRooms rooms = rooms)
  ∧ database.removeDuplicateRooms (database.removeDuplicateRooms rooms)
    = database.removeDuplicateRooms rooms.
Proof.
  assert (∀ l, NoDup (map database.ID l) -> database.removeDuplicateRooms l = l) as Hfix.
  { intros l Hnd. apply removeDuplicateRooms_loop_fresh; [done|].
    intros r _ Hin. by apply elem_of_empty in Hin. }
  split; [apply Hfix|]. apply Hfix.
  unfold database.removeDuplicateRooms.
  by destruct (removeDuplicateRooms_loop_spec rooms ∅) as (_ & Hnd & _).
Qed.

Lemma removeDuplicateRooms_idempotent_witness :
  database.removeDuplicateRooms (take 2 sample_rooms) = take 2 sample_rooms.
Proof.
  apply (proj1 (removeDuplicateRooms_idempotent (take 2 sample_rooms))).
  simpl. compute_done.
Defined.

(** ** A frame on its way through the room, and the last client leaving *)

Lemma run_cons (rid : RoomId) (a : Action) (rest : list Action) (s s1 : State) :
  exec rid a s = Some (Done s1) -> run rid (a :: rest) s = run rid rest s1.
Proof. intros Hexec. simpl. by rewrite Hexec. Qed.

(** X23: a frame of a recognized kind that a client's read loop reads
    while the loop of the room is idle is relayed by the next broadcast
    to every other client of the room: when no receiver's queue is
    closed, the moves of the read loop and of the loop of the room
    complete, every receiver with room in its queue has the message
    appended to it, stamped with the sender and the time of receipt, the
    sender gets nothing, the room itself is as before, and the loop is
    back in its select. *)
Theorem frame_is_relayed
    (rid : RoomId) (c : ClientId) (msg : Message) (now : GoTime)
    (order : list ClientId) (s : State) :
  c ∈ receiving s ->
  loop s = Selecting ->
  message (room s) = [] ->
  validCommand (Type_ msg) = true ->
  range_order (room s) order ->
  receivers_open (stamp c now msg) s ->
  ∃ acts s',
    Forall broadcast_move acts
    ∧ run rid (Receive c (ReadFrame msg now) :: LoopMessage order :: acts) s = Some (Done s')
    ∧ loop s' = Selecting
    ∧ room s' = room s
    ∧ heap s' !! c = heap s !! c
    ∧ (∀ d cd, d ∈ members (room s) -> d ≠ c -> heap s !! d = Some cd ->
         length (buf (send cd)) < cap (send cd) ->
         heap s' !! d =
           Some {| Conn_ := Conn_ cd; Room_ := Room_ cd;
                   send := {| buf := buf (send cd) ++ [stamp c now msg];
                              cap := cap (send cd); chan_closed := false |} |})
    ∧ (∀ d, d ∉ members (room s) -> heap s' !! d = heap s !! d).
Proof.
  intros Hc Hloop Hmsg Hvalid Hord Hopen.
  set (out := stamp c now msg).
  set (sx := set_message [] (set_message (message (room s) ++ [out]) s)).
  assert (exec rid (Receive c (ReadFrame msg now)) s
          = Some (Done (set_message (message (room s) ++ [out]) s))) as Hstep1.
  { simpl. rewrite decide_True by done. unfold receiveFrame. rewrite Hvalid.
    rewrite decide_True; [done|]. rewrite Hmsg. simpl. lia. }
  assert (exec rid (LoopMessage order) (set_message (message (room s) ++ [out]) s)
          = Some (Done (set_loop (Sending out order) sx))) as Hstep2.
  { simpl. rewrite Hloop, Hmsg. simpl. rewrite decide_True; done. }
  destruct (broadcast_moves_sendMessage rid out order sx) as (acts & Hacts & Hrun).
  destruct (sendMessage_Done order out sx) as (s1 & Hsend & Hroom & Hlook); [done|done|].
  rewrite Hsend in Hrun.
  exists acts, (set_loop Selecting s1).
  split; [done|]. split.
  { by rewrite (run_cons _ _ _ _ _ Hstep1), (run_cons _ _ _ _ _ Hstep2). }
  split; [done|]. split.
  { simpl. rewrite Hroom. subst sx. simpl. rewrite <- Hmsg. by destruct (room s). }
  split.
  { simpl. rewrite Hlook. case_decide; [|done]. simpl.
    destruct (heap s !! c) as [cl|]; [|done]. simpl.
    unfold after_sendTo. by rewrite decide_True. }
  split.
  - intros d cd Hd Hne Hcd Hlt. simpl. rewrite Hlook. simpl.
    rewrite decide_True by done. rewrite Hcd. simpl.
    destruct (Hopen d Hd) as (cd' & Hcd' & Hdopen); [simpl; congruence|].
    rewrite Hcd in Hcd'. injection Hcd' as <-.
    rewrite after_sendTo_room; [done|simpl; congruence|done|done].
  - intros d Hd. simpl. rewrite Hlook. simpl. by rewrite decide_False.
Qed.

Lemma frame_is_relayed_witness :
  ∃ acts s',
    run 1%positive (Receive 1%positive (ReadFrame seek_message 7%Z)
                    :: LoopMessage [1; 2; 3]%positive :: acts) saturated_state
    = Some (Done s')
    ∧ heap s' !! 3%positive = Some (open_client [stamp 1%positive 7%Z seek_message])
    ∧ heap s' !! 1%positive = Some (open_client []).
Proof.
  destruct (frame_is_relayed 1%positive 1%positive seek_message 7%Z [1; 2; 3]%positive
              saturated_state)
    as (acts & s' & _ & Hrun & _ & _ & Hsender & Hothers & _).
  - compute_done.
  - reflexivity.
  - reflexivity.
  - reflexivity.
  - exact saturated_state_order.
  - exact saturated_state_receivers_open.
  - exists acts, s'. split; [exact Hrun|]. split.
    + apply (Hothers 3%positive (open_client [])).
      * compute_done.
      * discriminate.
      * reflexivity.
      * simpl. lia.
    + exact (eq_trans Hsender eq_refl).
Defined.

(** X24: when the read loop of the only client of a room ends and the
    loop of the room serves its request, the room is cancelled, and the
    teardown that follows completes without a panic: the client set is
    the nil map, the flag is set, the loop has returned, and the client
    has been closed twice, by its read loop and by the eviction, none of
    which closes its queue a second time. *)
Theorem last_client_leaves (rid : RoomId) (c : ClientId) (cl : Client) (s : State) :
  clients (room s) = Some {[c]} ->
  heap s !! c = Some cl ->
  c ∈ receiving s ->
  loop s = Selecting ->
  unregister (room s) = [] ->
  cleaned (room s) = false ->
  ∃ s', run rid [Receive c ReadError; LoopUnregister; LoopDone []] s = Some (Done s')
    ∧ loop s' = Returned
    ∧ cancelled (room s') = true
    ∧ cleaned (room s') = true
    ∧ clients (room s') = None
    ∧ ClientCount s' = 0
    ∧ heap s' = <[c := after_close (after_close cl)]> (heap s)
    ∧ (c ∉ receiving s').
Proof.
  intros Hcs Hcl Hc Hloop Hq Hflag.
  assert (({[c]} : gset ClientId) ∖ {[c]} = ∅) as Hdiff by apply difference_diag_L.
  eexists. split.
  - erewrite run_cons.
    2:{ simpl. rewrite decide_True by done.
        rewrite decide_True by (rewrite Hq; simpl; lia).
        rewrite (close_client_Done _ _ _ Hcl). simpl. reflexivity. }
    erewrite run_cons.
    2:{ simpl. rewrite Hloop, Hq. simpl. unfold unregisterClient. simpl. rewrite Hcs.
        rewrite decide_True by (by apply elem_of_singleton).
        rewrite (close_client_Done c _ (after_close cl)) by (by rewrite lookup_insert_eq).
        unfold obind. rewrite decide_True by (by rewrite Hdiff, size_empty).
        reflexivity. }
    rewrite Hdiff. simpl. rewrite Hloop.
    rewrite decide_True by (unfold range_order, members; simpl; reflexivity).
    unfold cleanup. simpl. rewrite Hflag. simpl. reflexivity.
  - simpl. split_and!; try done.
    + by rewrite insert_insert_eq.
    + intros [_ Hne]%elem_of_difference. apply Hne. by apply elem_of_singleton.
Qed.

Lemma last_client_leaves_witness :
  ∃ s', run 1%positive [Receive 1%positive ReadError; LoopUnregister; LoopDone []]
          slow_reader_state = Some (Done s')
    ∧ loop s' = Returned
    ∧ cleaned (room s') = true.
Proof.
  destruct (last_client_leaves 1%positive 1%positive (open_client full_queue)
              slow_reader_state)
    as (s' & Hrun & Hloop & _ & Hflag & _).
  - reflexivity.
  - reflexivity.
  - vm_compute. reflexivity.
  - reflexivity.
  - reflexivity.
  - reflexivity.
  - exists s'. split; [exact Hrun|]. split; [exact Hloop|exact Hflag].
Defined.
